(** * ModelUpdater: reconciliation of a local model directory with a remote catalog

    Shallow embedding of [mining_core/base/model_updater.py].

    The updater talks to three collaborators: the HTTP session that serves
    the two catalog documents, the models directory on disk, and
    [download_file] of [utils/file_utils.py].  Every call to one of them is
    recorded as an event, so that "a transfer is attempted", "the directory
    is scanned" or "the failure is reported" are statements about the events
    of a run.  The two configuration partitions ([config['model_configs']]
    and [config['vae_configs']]) and the directory listing are explicit
    state; Python exceptions are an explicit outcome, and the state reached
    when an exception is raised is kept, as in Python.

    What the model takes for granted:
    - catalog documents that are lists are lists of JSON objects whose
      ['name'] and ['file_url'], when present, are strings and whose
      ['size_mb'], when present, is an integer;
    - the models directory exists and can be listed, and artifact names
      are plain file names, so that [os.listdir] and [os.path.exists] look
      at the same set of entries;
    - a catalog source answers a URL the same way each time it is asked,
      and [download_file] answers a call by its arguments alone.

    [start_scheduled_updates] calls [update_models] forever and has no
    state of its own; it is not part of the model. *)

From Stdlib Require Import Ascii ZArith.
From stdpp Require Import gmap strings list fin_maps.

Local Open Scope string_scope.
Local Open Scope list_scope.

(** ** Strings: the two [str] methods the inventory scan uses *)

(** [s.endswith(suffix)]. *)
Fixpoint endswith (s suffix : string) : bool :=
  String.eqb s suffix ||
  match s with
  | EmptyString => false
  | String _ rest => endswith rest suffix
  end.

(** [s.rsplit('.', 1)] cuts [s] at its last dot.  [rsplit_dot s] is
    [Some head] with [head] the text before the last dot, and [None] when
    [s] has no dot. *)
Fixpoint rsplit_dot (s : string) : option string :=
  match s with
  | EmptyString => None
  | String c rest =>
      match rsplit_dot rest with
      | Some head => Some (String c head)
      | None => if Ascii.eqb c "."%char then Some EmptyString else None
      end
  end.

(** [s.rsplit('.', 1)[0]]: without a dot the list is [[s]]. *)
Definition rsplit_dot_0 (s : string) : string :=
  match rsplit_dot s with
  | Some head => head
  | None => s
  end.

Definition safetensors : string := ".safetensors".

(** ** Data *)

(** A catalog record, as far as the updater reads it.  The records are JSON
    objects; a field is [None] when the key is absent, which is what makes
    [model_info['name']] raise [KeyError].  Names and URLs are strings and
    sizes are integers.  The updater only tests whether the key ['vae'] is
    present, it never reads its value. *)
Record model_info := ModelInfo {
  name : option string;
  file_url : option string;
  size_mb : option Z;
  vae : option bool
}.

(** What [response.json()] yields: a list of records, or anything else. *)
Inductive json :=
  | JsonList (models : list model_info)
  | JsonOther.

(** What [session.get(url)], [raise_for_status()] and [json()] yield together:
    the decoded payload, or a [requests.exceptions.RequestException]
    (connection error, HTTP error status, undecodable body). *)
Inductive response :=
  | RequestException
  | Payload (models : json).

(** Modelled from the spec: [download_file] of [utils/file_utils.py] is not
    among the sources.  By the contract of the Artifact Fetcher it is given
    a URL, a destination name and an expected size and retrieves the
    artifact into the models directory, so the only entry it may add is its
    destination.  A call is summed up by what the updater can see of it:
    whether the destination file exists afterwards and whether the call
    raises.  The content of the file is not modelled; the updater never
    reads it. *)
Record download_result := DownloadResult {
  writes_file : bool;
  raises : bool
}.

Definition download_ok : download_result :=
  {| writes_file := true; raises := false |}.

Inductive message :=
  | UnexpectedFormat (url : string)
  | FailedToFetch (url : string)
  | MissingModels (missing_models : gset string)
  | DownloadingNewModel (model_name : string)
  | CouldNotFetch
  | UpdatesCompleted
  | NoUpdatesRequired
  | UpdateCompletedFor (model_name : string)
  | NotFoundInRemoteList (model_id : string).

Inductive event :=
  | SessionGet (url : string)
  | LogWarning (msg : message)
  | LogError (msg : message)
  | ListDir
  | PathExists (file_name : string)
  | DownloadFile (url file_name : string) (total_size : Z)
  | Stdout (msg : message).

Inductive exn :=
  | KeyError (key : string)
  | DownloadError.

(** The mutable world of one updater: the entries of [models_directory]
    and the two partitions of [self.config]. *)
Record state := State {
  local_files : gset string;
  model_configs : gmap string model_info;
  vae_configs : gmap string model_info
}.

(** The fields of [self] set once by [__init__], and the session. *)
Record ModelUpdater := {
  model_config_url : string;
  vae_config_url : string;
  session_get : string → response
}.

(** ** The monad of the updater: state, exceptions and a log of calls *)

Inductive outcome (A : Type) :=
  | Ret (a : A)
  | Raise (e : exn).
Arguments Ret {A} a.
Arguments Raise {A} e.

(** What a run leaves behind: how it ended, the state it reached, and the
    calls it made, in order. *)
Record result (A : Type) := Result {
  outcome_of : outcome A;
  state_of : state;
  events_of : list event
}.
Arguments Result {A} _ _ _.
Arguments outcome_of {A} _.
Arguments state_of {A} _.
Arguments events_of {A} _.

Definition M (A : Type) : Type := state → result A.

Definition ret {A} (a : A) : M A := λ st, Result (Ret a) st [].

Definition raise {A} (e : exn) : M A := λ st, Result (Raise e) st [].

Definition bind {A B} (m : M A) (k : A → M B) : M B :=
  λ st,
    let r := m st in
    match outcome_of r with
    | Ret a =>
        let r' := k a (state_of r) in
        Result (outcome_of r') (state_of r') (events_of r ++ events_of r')
    | Raise e => Result (Raise e) (state_of r) (events_of r)
    end.

Declare Scope updater_scope.
Delimit Scope updater_scope with upd.
Notation "x <- m ;; k" := (bind m (λ x, k))
  (at level 100, m at next level, right associativity) : updater_scope.
Notation "m ;; k" := (bind m (λ _, k))
  (at level 100, right associativity) : updater_scope.
Local Open Scope updater_scope.

Definition emit (e : event) : M unit := λ st, Result (Ret tt) st [e].

Definition print (msg : message) : M unit := emit (Stdout msg).

(** [d[key]] on a record: [KeyError] when the key is absent. *)
Definition getitem {A} (key : string) (field : option A) : M A :=
  match field with
  | Some v => ret v
  | None => raise (KeyError key)
  end.

(** [for x in xs: body(x)]. *)
Fixpoint for_each {A} (body : A → M unit) (xs : list A) : M unit :=
  match xs with
  | [] => ret tt
  | x :: rest => body x;; for_each body rest
  end.

(** ** File system primitives *)

Definition os_listdir : M (list string) :=
  λ st, Result (Ret (elements (local_files st))) st [ListDir].

Definition os_path_exists (file_name : string) : M bool :=
  λ st, Result (Ret (bool_decide (file_name ∈ local_files st))) st
          [PathExists file_name].

(** The directory with one more entry. *)
Definition add_file (file_name : string) (st : state) : state :=
  {| local_files := {[file_name]} ∪ local_files st;
     model_configs := model_configs st;
     vae_configs := vae_configs st |}.

Definition create_file (file_name : string) : M unit :=
  λ st, Result (Ret tt) (add_file file_name st) [].

(** ** Configuration primitives *)

Definition set_model_config (model_name : string) (mi : model_info) : M unit :=
  λ st, Result (Ret tt)
          {| local_files := local_files st;
             model_configs := <[model_name := mi]> (model_configs st);
             vae_configs := vae_configs st |} [].

Definition set_vae_config (model_name : string) (mi : model_info) : M unit :=
  λ st, Result (Ret tt)
          {| local_files := local_files st;
             model_configs := model_configs st;
             vae_configs := <[model_name := mi]> (vae_configs st) |} [].

Definition get_model_configs : M (gmap string model_info) :=
  λ st, Result (Ret (model_configs st)) st [].

Definition get_vae_configs : M (gmap string model_info) :=
  λ st, Result (Ret (vae_configs st)) st [].

(** ** The updater *)

Section updater.
Context (self : ModelUpdater).
(** [download_file(models_directory, file_url, file_name, total_size)]:
    which calls write their file and which raise is a parameter. *)
Context (download_file : string → string → Z → download_result).

Definition call_download_file (url file_name : string) (total_size : Z)
  : M unit :=
  emit (DownloadFile url file_name total_size);;
  (if writes_file (download_file url file_name total_size)
   then create_file file_name else ret tt);;
  if raises (download_file url file_name total_size)
  then raise DownloadError else ret tt.

(** The loop of [fetch_remote_model_list] over the remaining [urls]. *)
Fixpoint fetch_urls (urls : list string) (combined_models : list model_info)
  : M (option (list model_info)) :=
  match urls with
  | [] => ret (Some combined_models)
  | url :: rest =>
      emit (SessionGet url);;
      match session_get self url with
      | Payload (JsonList models) =>
          fetch_urls rest (combined_models ++ models)
      | Payload JsonOther =>
          emit (LogWarning (UnexpectedFormat url));;
          fetch_urls rest combined_models
      | RequestException =>
          emit (LogError (FailedToFetch url));;
          ret None
      end
  end.

Definition fetch_remote_model_list : M (option (list model_info)) :=
  fetch_urls [model_config_url self; vae_config_url self] [].

(** [{model_info['name'] for model_info in remote_model_list}], in the
    order the comprehension reads the records. *)
Fixpoint remote_names (remote_model_list : list model_info)
  : M (gset string) :=
  match remote_model_list with
  | [] => ret ∅
  | mi :: rest =>
      n <- getitem "name" (name mi);;
      names <- remote_names rest;;
      ret ({[n]} ∪ names)
  end.

Definition local_names (local_files : list string) : gset string :=
  list_to_set
    (map rsplit_dot_0
       (filter (λ file_name, endswith file_name safetensors = true)
          local_files)).

Definition is_update_required (remote_model_list : list model_info)
  : M bool :=
  local_files <- os_listdir;;
  let local_model_names := local_names local_files in
  remote_model_names <- remote_names remote_model_list;;
  let missing_models := remote_model_names ∖ local_model_names in
  if decide (missing_models = ∅) then ret false
  else print (MissingModels missing_models);; ret true.

Definition download_single_model (mi : model_info) : M unit :=
  model_name <- getitem "name" (name mi);;
  model_url <- getitem "file_url" (file_url mi);;
  model_size_mb <- getitem "size_mb" (size_mb mi);;
  let file_name := model_name +:+ safetensors in
  present <- os_path_exists file_name;;
  if present then ret tt
  else
    print (DownloadingNewModel model_name);;
    call_download_file model_url file_name (model_size_mb * 1024 * 1024)%Z.

Definition update_config_single_model (mi : model_info) : M unit :=
  model_name <- getitem "name" (name mi);;
  if vae mi is Some _ then
    vae_configs <- get_vae_configs;;
    if decide (model_name ∈ dom vae_configs) then ret tt
    else set_vae_config model_name mi
  else
    model_configs <- get_model_configs;;
    if decide (model_name ∈ dom model_configs) then ret tt
    else set_model_config model_name mi.

Definition download_new_models (remote_model_list : list model_info)
  : M unit :=
  for_each download_single_model remote_model_list.

Definition update_configs (remote_model_list : list model_info) : M unit :=
  for_each update_config_single_model remote_model_list.

(** [not remote_model_list]: true for [None] and for the empty list. *)
Definition not_list (remote_model_list : option (list model_info)) : bool :=
  match remote_model_list with
  | None | Some [] => true
  | Some (_ :: _) => false
  end.

(** Past the test [not remote_model_list] the list is there and not empty;
    [default []] only unwraps it. *)
Definition update_models : M unit :=
  remote_model_list <- fetch_remote_model_list;;
  if not_list remote_model_list then print CouldNotFetch
  else
    let remote_model_list := default [] remote_model_list in
    required <- is_update_required remote_model_list;;
    if required then
      download_new_models remote_model_list;;
      update_configs remote_model_list;;
      print UpdatesCompleted
    else print NoUpdatesRequired.

(** [next((model for model in remote_model_list
            if model['name'] == model_id), None)]. *)
Fixpoint next_model (model_id : string) (remote_model_list : list model_info)
  : M (option model_info) :=
  match remote_model_list with
  | [] => ret None
  | model :: rest =>
      n <- getitem "name" (name model);;
      if String.eqb n model_id then ret (Some model)
      else next_model model_id rest
  end.

(** [if model_info:] holds for every record [next] can return: such a
    record has the key ['name'], so it is a non-empty dict. *)
Definition update_single_model (model_id : string) : M unit :=
  remote_model_list <- fetch_remote_model_list;;
  if not_list remote_model_list then print CouldNotFetch
  else
    let remote_model_list := default [] remote_model_list in
    model_info <- next_model model_id remote_model_list;;
    match model_info with
    | Some mi =>
        download_single_model mi;;
        update_config_single_model mi;;
        model_name <- getitem "name" (name mi);;
        print (UpdateCompletedFor model_name)
    | None => print (NotFoundInRemoteList model_id)
    end.

End updater.

Arguments fetch_remote_model_list : simpl never.
Arguments is_update_required : simpl never.
Arguments call_download_file : simpl never.
Arguments download_single_model : simpl never.
Arguments update_config_single_model : simpl never.
Arguments download_new_models : simpl never.
Arguments update_configs : simpl never.
Arguments not_list : simpl never.

(** ** Reading a run *)

Definition is_download (e : event) : bool :=
  match e with
  | DownloadFile _ _ _ => true
  | _ => false
  end.

(** The calls [fetch_remote_model_list] makes. *)
Definition is_catalog_event (e : event) : bool :=
  match e with
  | SessionGet _ | LogWarning _ | LogError _ => true
  | _ => false
  end.

(** The number of transfers a run attempted. *)
Definition fetches (evs : list event) : nat :=
  length (filter (λ e, is_download e = true) evs).

(** ['vae' in model_info]. *)
Definition is_vae (mi : model_info) : bool :=
  if vae mi is Some _ then true else false.

(** The two partitions of the configuration store, by kind. *)
Definition configs_of (vae_kind : bool) (st : state)
  : gmap string model_info :=
  if vae_kind then vae_configs st else model_configs st.

(** The partition [vae_kind] holds the record [d] under the name [A]. *)
Definition holds_entry (vae_kind : bool) (A : string) (d : model_info)
    (st : state) : Prop :=
  configs_of vae_kind st !! A = Some d.

(** The partition [update_config_single_model] picks for a record. *)
Definition partition_of (mi : model_info) (st : state)
  : gmap string model_info :=
  configs_of (is_vae mi) st.

(** The number of keys a run added to the configuration store. *)
Definition merges (st st' : state) : nat :=
  (size (model_configs st') - size (model_configs st)) +
  (size (vae_configs st') - size (vae_configs st)).

(** The partition it leaves alone. *)
Definition other_partition_of (mi : model_info) (st : state)
  : gmap string model_info :=
  configs_of (negb (is_vae mi)) st.

(** A record that carries the key ['name']. *)
Definition named (mi : model_info) : Prop := is_Some (name mi).

(** A record that carries the three keys [download_single_model] reads. *)
Definition complete (mi : model_info) : Prop :=
  is_Some (name mi) ∧ is_Some (file_url mi) ∧ is_Some (size_mb mi).

(** The record [mi] is in the catalog under the name [n]. *)
Definition listed (l : list model_info) (n : string) : Prop :=
  ∃ mi, mi ∈ l ∧ name mi = Some n.

(** What [download_file] answers when it is called for a record. *)
Definition transfer_of (download_file : string → string → Z → download_result)
    (mi : model_info) : option download_result :=
  match name mi, file_url mi, size_mb mi with
  | Some n, Some url, Some size =>
      Some (download_file url (n +:+ safetensors) (size * 1024 * 1024)%Z)
  | _, _, _ => None
  end.

(** A property of runs of [m]: it relates the state before, the calls made
    and the state after, whether the run returns or raises. *)
Definition preserves (P : state → list event → state → Prop) {A} (m : M A)
  : Prop :=
  ∀ st, P st (events_of (m st)) (state_of (m st)).

(** The properties that compose along a program: they hold of the empty
    run and of two runs in sequence. *)
Class Composable (P : state → list event → state → Prop) : Prop := {
  composable_nil : ∀ st, P st [] st;
  composable_app : ∀ s1 e1 s2 e2 s3,
    P s1 e1 s2 → P s2 e2 s3 → P s1 (e1 ++ e2) s3
}.

(** Entries of the configuration store are kept as they are. *)
Definition configs_kept (st : state) (evs : list event) (st' : state) : Prop :=
  model_configs st ⊆ model_configs st' ∧ vae_configs st ⊆ vae_configs st'.

(** Files are kept, and as long as [f] exists no transfer to [f] is
    attempted. *)
Definition no_transfer (f : string) (st : state) (evs : list event)
    (st' : state) : Prop :=
  local_files st ⊆ local_files st' ∧
  (f ∈ local_files st → ∀ url size, DownloadFile url f size ∉ evs).

(** ** Scenarios *)

Definition models_url : string := "https://catalog.test/models".
Definition vaes_url : string := "https://catalog.test/vaes".

(** An updater whose two sources answer [models] and [vaes]. *)
Definition serving (models vaes : response) : ModelUpdater :=
  {| model_config_url := models_url;
     vae_config_url := vaes_url;
     session_get := λ url, if String.eqb url models_url then models else vaes |}.

(** A model record named [n]. *)
Definition model_record (n : string) : model_info :=
  {| name := Some n; file_url := Some ("http://x/" +:+ n);
     size_mb := Some 10%Z; vae := None |}.

Definition m1 : model_info := model_record "m1".
Definition art_a : model_info := model_record "a".
Definition art_b : model_info := model_record "b".
Definition art_c : model_info := model_record "c".

Definition v1 : model_info :=
  {| name := Some "v1"; file_url := Some "http://x/v1";
     size_mb := Some 5%Z; vae := Some true |}.

(** An older record for [v1], with another URL and size. *)
Definition old_v1 : model_info :=
  {| name := Some "v1"; file_url := Some "http://old/v1";
     size_mb := Some 4%Z; vae := Some true |}.

(** Every transfer succeeds. *)
Definition always_ok : string → string → Z → download_result :=
  λ _ _ _, download_ok.

(** Transfers to [file_name] end as [dr]; the others succeed. *)
Definition except_for (file_name : string) (dr : download_result)
  : string → string → Z → download_result :=
  λ _ f _, if String.eqb f file_name then dr else download_ok.

Definition returns_without_file : download_result :=
  {| writes_file := false; raises := false |}.

Definition raises_without_file : download_result :=
  {| writes_file := false; raises := true |}.

Definition empty_state : state :=
  {| local_files := ∅; model_configs := ∅; vae_configs := ∅ |}.

(** [v1.safetensors] is in the directory, nothing is configured. *)
Definition v1_on_disk : state :=
  {| local_files := {["v1.safetensors"]};
     model_configs := ∅; vae_configs := ∅ |}.

(** [v1.safetensors] is in the directory and [v1] is configured from an
    older catalog. *)
Definition v1_configured : state :=
  {| local_files := {["v1.safetensors"]};
     model_configs := ∅; vae_configs := {["v1" := old_v1]} |}.

Definition abc_catalog : ModelUpdater :=
  serving (Payload (JsonList [art_a; art_b; art_c])) (Payload (JsonList [])).

Definition m1_v1_catalog : ModelUpdater :=
  serving (Payload (JsonList [m1])) (Payload (JsonList [v1])).

Definition v1_catalog : ModelUpdater :=
  serving (Payload (JsonList [])) (Payload (JsonList [v1])).

Definition empty_catalog : ModelUpdater :=
  serving (Payload (JsonList [])) (Payload (JsonList [])).

Definition unreachable_catalog : ModelUpdater :=
  serving RequestException (Payload (JsonList [v1])).


(** ** Further notions for the properties of the single methods *)


(** The key [download_single_model] misses first in an incomplete record. *)
Definition first_missing_key (mi : model_info) : string :=
  if name mi is None then "name"
  else if file_url mi is None then "file_url"
  else "size_mb".

(** The call [download_single_model] makes for a record when its file is
    absent. *)
Definition transfer_event (mi : model_info) : option event :=
  match name mi, file_url mi, size_mb mi with
  | Some n, Some url, Some size =>
      Some (DownloadFile url (n +:+ safetensors) (size * 1048576)%Z)
  | _, _, _ => None
  end.

(** The destinations of the transfers among the calls of a run. *)
Fixpoint destinations (evs : list event) : list string :=
  match evs with
  | [] => []
  | DownloadFile _ f _ :: rest => f :: destinations rest
  | _ :: rest => destinations rest
  end.

(** Every entry of the store is filed under its own name, in the partition
    of its kind. *)
Definition well_keyed (st : state) : Prop :=
  ∀ vae_kind n x,
    configs_of vae_kind st !! n = Some x → name x = Some n ∧ is_vae x = vae_kind.

(** The store is as it was. *)
Definition configs_same (st : state) (evs : list event) (st' : state) : Prop :=
  model_configs st' = model_configs st ∧ vae_configs st' = vae_configs st.

(** Files are kept, and a file that was not there is the destination of a
    transfer of the run. *)
Definition files_from_transfers (st : state) (evs : list event) (st' : state)
  : Prop :=
  local_files st ⊆ local_files st' ∧
  ∀ g, g ∈ local_files st' → g ∈ local_files st ∨ g ∈ destinations evs.

(** A well-keyed store stays well-keyed. *)
Definition keeps_well_keyed (st : state) (evs : list event) (st' : state)
  : Prop :=
  well_keyed st → well_keyed st'.

(** ** The scheduler loop *)

(** What [start_scheduled_updates] does, in order: its one line of output,
    the calls of the passes it runs, and its sleeps. *)
Inductive loop_event :=
  | Scheduled (update_interval_seconds : Z)
  | InPass (e : event)
  | Sleep.

(** The loop has no exit of its own: after finitely many turns it is still
    running, unless an exception left it. *)
Inductive loop_outcome :=
  | Running
  | Crashed (e : exn).

Record loop_result := LoopResult {
  loop_outcome_of : loop_outcome;
  loop_state_of : state;
  loop_events_of : list loop_event
}.

Section scheduler.
Context (self : ModelUpdater).
Context (download_file : string → string → Z → download_result).

(** [while True: schedule.run_pending(); time.sleep(1)], for as many turns
    as [due] is long.  Whether the job is due at a turn is decided by
    [schedule] from the wall clock; here it is read from [due].  The job is
    [update_models]; [schedule] lets an exception of the job through, and
    nothing in the loop catches it. *)
Fixpoint scheduler_loop (due : list bool) (st : state) : loop_result :=
  match due with
  | [] => LoopResult Running st []
  | false :: rest =>
      let r := scheduler_loop rest st in
      LoopResult (loop_outcome_of r) (loop_state_of r)
        (Sleep :: loop_events_of r)
  | true :: rest =>
      let p := update_models self download_file st in
      match outcome_of p with
      | Raise e => LoopResult (Crashed e) (state_of p) (InPass <$> events_of p)
      | Ret _ =>
          let r := scheduler_loop rest (state_of p) in
          LoopResult (loop_outcome_of r) (loop_state_of r)
            ((InPass <$> events_of p) ++ Sleep :: loop_events_of r)
      end
  end.

Definition start_scheduled_updates (update_interval_seconds : Z)
    (due : list bool) (st : state) : loop_result :=
  let r := scheduler_loop due st in
  LoopResult (loop_outcome_of r) (loop_state_of r)
    (Scheduled update_interval_seconds :: loop_events_of r).

End scheduler.

(** The calls of the passes among the events of the loop. *)
Fixpoint pass_events (evs : list loop_event) : list event :=
  match evs with
  | [] => []
  | InPass e :: rest => e :: pass_events rest
  | _ :: rest => pass_events rest
  end.

(** ** More scenarios *)

(** A record without the key ['name']. *)
Definition nameless : model_info :=
  {| name := None; file_url := Some "http://x/none";
     size_mb := Some 1%Z; vae := None |}.

(** A record without the key ['file_url']. *)
Definition no_url : model_info :=
  {| name := Some "m2"; file_url := None; size_mb := Some 1%Z; vae := None |}.

(** A record whose key ['vae'] is there with the value [false]. *)
Definition vae_false : model_info :=
  {| name := Some "v2"; file_url := Some "http://x/v2";
     size_mb := Some 2%Z; vae := Some false |}.

(** The models source lists [m1] and then a record without a name. *)
Definition nameless_catalog : ModelUpdater :=
  serving (Payload (JsonList [m1; nameless])) (Payload (JsonList [v1])).

(** The models source lists [m1] twice. *)
Definition twice_m1_catalog : ModelUpdater :=
  serving (Payload (JsonList [m1; m1])) (Payload (JsonList [v1])).

(** [c.safetensors] is in the directory, nothing is configured. *)
Definition c_on_disk : state :=
  {| local_files := {["c.safetensors"]};
     model_configs := ∅; vae_configs := ∅ |}.

(** * Proofs *)

(** ** Sequencing *)

(** Reduces the projections of results that are known, and nothing else. *)
Ltac run_simpl := cbn [outcome_of state_of events_of default from_option id].

Lemma bind_ret_run {A B} (m : M A) (k : A → M B) st a :
  outcome_of (m st) = Ret a →
  bind m k st =
    Result (outcome_of (k a (state_of (m st))))
      (state_of (k a (state_of (m st))))
      (events_of (m st) ++ events_of (k a (state_of (m st)))).
Proof. intros H. unfold bind. by rewrite H. Qed.

Lemma bind_raise_run {A B} (m : M A) (k : A → M B) st e :
  outcome_of (m st) = Raise e →
  bind m k st = Result (Raise e) (state_of (m st)) (events_of (m st)).
Proof. intros H. unfold bind. by rewrite H. Qed.

Lemma for_each_cons {A} (body : A → M unit) x xs :
  for_each body (x :: xs) = (body x;; for_each body xs)%upd.
Proof. done. Qed.

(** ** Properties of runs, generically *)

Section invariants.
Context (P : state → list event → state → Prop) `{!Composable P}.

Lemma preserves_ret {A} (a : A) : preserves P (ret a).
Proof. intros st. apply composable_nil. Qed.

Lemma preserves_raise {A} (e : exn) : preserves P (@raise A e).
Proof. intros st. apply composable_nil. Qed.

Lemma preserves_getitem {A} key (field : option A) :
  preserves P (getitem key field).
Proof. destruct field; [apply preserves_ret | apply preserves_raise]. Qed.

Lemma preserves_bind {A B} (m : M A) (k : A → M B) :
  preserves P m → (∀ a, preserves P (k a)) → preserves P (bind m k).
Proof.
  intros Hm Hk st. unfold bind. specialize (Hm st).
  destruct (outcome_of (m st)) as [a|e]; simpl.
  - eapply composable_app; [exact Hm | apply Hk].
  - exact Hm.
Qed.

Lemma preserves_for_each {A} (body : A → M unit) xs :
  (∀ x, preserves P (body x)) → preserves P (for_each body xs).
Proof.
  intros Hbody. induction xs as [|x xs IH]; simpl.
  - apply preserves_ret.
  - apply preserves_bind; [apply Hbody | intros _; exact IH].
Qed.
End invariants.

(** Splits a monadic program along its binds and branches; what is left
    are its primitive calls. *)
Ltac preserves_step :=
  lazymatch goal with
  | |- preserves _ (bind _ _) => apply (preserves_bind _); [|intros ?]
  | |- preserves _ (ret _) => apply (preserves_ret _)
  | |- preserves _ (raise _) => apply (preserves_raise _)
  | |- preserves _ (getitem _ _) => apply (preserves_getitem _)
  | |- preserves _ (for_each _ _) => apply (preserves_for_each _); intros ?
  | |- preserves _ (let _ := _ in _) => cbv zeta
  | |- preserves _ (match _ with _ => _ end) => case_match
  end.

(** ** The configuration store only grows *)

#[export] Instance configs_kept_composable : Composable configs_kept.
Proof.
  split.
  - intros st. by split.
  - intros s1 e1 s2 e2 s3 [Hm1 Hv1] [Hm2 Hv2]. split; by etrans.
Qed.

Lemma emit_configs_kept e : preserves configs_kept (emit e).
Proof. intros st. by split. Qed.

Lemma create_file_configs_kept f : preserves configs_kept (create_file f).
Proof. intros st. by split. Qed.

Lemma os_listdir_configs_kept : preserves configs_kept os_listdir.
Proof. intros st. by split. Qed.

Lemma os_path_exists_configs_kept f : preserves configs_kept (os_path_exists f).
Proof. intros st. by split. Qed.

Create HintDb configs_kept.
#[export] Hint Resolve emit_configs_kept create_file_configs_kept
  os_listdir_configs_kept os_path_exists_configs_kept : configs_kept.

Ltac configs_kept_tac :=
  repeat first [ solve [eauto with configs_kept] | preserves_step ].

Section configs_kept.
Context (self : ModelUpdater).
Context (download_file : string → string → Z → download_result).

Lemma call_download_file_configs_kept url f size :
  preserves configs_kept (call_download_file download_file url f size).
Proof. unfold call_download_file. configs_kept_tac. Qed.

Lemma fetch_urls_configs_kept urls acc :
  preserves configs_kept (fetch_urls self urls acc).
Proof.
  revert acc. induction urls as [|url urls IH]; intros acc; simpl.
  - apply (preserves_ret _).
  - configs_kept_tac; apply IH.
Qed.

Lemma fetch_remote_model_list_configs_kept :
  preserves configs_kept (fetch_remote_model_list self).
Proof. apply fetch_urls_configs_kept. Qed.

Lemma remote_names_configs_kept l : preserves configs_kept (remote_names l).
Proof. induction l as [|mi l IH]; simpl; configs_kept_tac. Qed.

Lemma is_update_required_configs_kept l :
  preserves configs_kept (is_update_required l).
Proof.
  unfold is_update_required, print.
  configs_kept_tac; auto using remote_names_configs_kept.
Qed.

Lemma download_single_model_configs_kept mi :
  preserves configs_kept (download_single_model download_file mi).
Proof.
  unfold download_single_model, print.
  configs_kept_tac; auto using call_download_file_configs_kept.
Qed.

(** The guard of the merge: the key is written only when it is absent, so
    what the partition held before is still there. *)
Lemma update_config_single_model_configs_kept mi :
  preserves configs_kept (update_config_single_model mi).
Proof.
  intros st. unfold update_config_single_model, bind, getitem.
  destruct (name mi) as [n|]; simpl; [|done].
  destruct (vae mi); simpl; case_decide as Hin; simpl; try done.
  - split; simpl; [done |].
    apply insert_subseteq. by apply not_elem_of_dom.
  - split; simpl; [| done].
    apply insert_subseteq. by apply not_elem_of_dom.
Qed.

Lemma download_new_models_configs_kept l :
  preserves configs_kept (download_new_models download_file l).
Proof.
  apply (preserves_for_each _).
  apply download_single_model_configs_kept.
Qed.

Lemma update_configs_configs_kept l :
  preserves configs_kept (update_configs l).
Proof.
  apply (preserves_for_each _).
  apply update_config_single_model_configs_kept.
Qed.

Lemma update_models_configs_kept :
  preserves configs_kept (update_models self download_file).
Proof.
  unfold update_models, print. configs_kept_tac;
    auto using fetch_remote_model_list_configs_kept,
      is_update_required_configs_kept, download_new_models_configs_kept,
      update_configs_configs_kept.
Qed.

Lemma next_model_configs_kept id l :
  preserves configs_kept (next_model id l).
Proof. induction l as [|mi l IH]; simpl; configs_kept_tac. Qed.

Lemma update_single_model_configs_kept id :
  preserves configs_kept (update_single_model self download_file id).
Proof.
  unfold update_single_model, print. configs_kept_tac;
    auto using fetch_remote_model_list_configs_kept,
      next_model_configs_kept, download_single_model_configs_kept,
      update_config_single_model_configs_kept.
Qed.
End configs_kept.

(** ** Existing files are never fetched again *)

#[export] Instance no_transfer_composable f : Composable (no_transfer f).
Proof.
  split.
  - intros st. split; [done |].
    intros _ url size Hin. by apply elem_of_nil in Hin.
  - intros s1 e1 s2 e2 s3 (Hf1 & Hn1) (Hf2 & Hn2).
    split; [set_solver |].
    intros Hin url size [Hd|Hd]%elem_of_app.
    + by apply (Hn1 Hin url size).
    + apply (Hn2 (Hf1 _ Hin) url size Hd).
Qed.

Lemma emit_no_transfer f e :
  is_download e = false → preserves (no_transfer f) (emit e).
Proof.
  intros He st. split; [done |].
  intros _ url size Hin%list_elem_of_singleton. by subst e.
Qed.

Lemma os_listdir_no_transfer f : preserves (no_transfer f) os_listdir.
Proof.
  intros st. split; [done |].
  intros _ url size Hin%list_elem_of_singleton. discriminate.
Qed.

Lemma os_path_exists_no_transfer f g :
  preserves (no_transfer f) (os_path_exists g).
Proof.
  intros st. split; [done |].
  intros _ url size Hin%list_elem_of_singleton. discriminate.
Qed.

Create HintDb no_transfer.
#[export] Hint Resolve emit_no_transfer os_listdir_no_transfer
  os_path_exists_no_transfer : no_transfer.

Ltac no_transfer_tac :=
  repeat first [ solve [eauto with no_transfer] | preserves_step ].

Section no_transfer.
Context (self : ModelUpdater).
Context (download_file : string → string → Z → download_result).
Context (f : string).

Lemma fetch_urls_no_transfer urls acc :
  preserves (no_transfer f) (fetch_urls self urls acc).
Proof.
  revert acc. induction urls as [|url urls IH]; intros acc; simpl;
    no_transfer_tac; apply IH.
Qed.

Lemma remote_names_no_transfer l : preserves (no_transfer f) (remote_names l).
Proof. induction l as [|mi l IH]; simpl; no_transfer_tac. Qed.

Lemma is_update_required_no_transfer l :
  preserves (no_transfer f) (is_update_required l).
Proof.
  unfold is_update_required, print.
  no_transfer_tac; auto using remote_names_no_transfer.
Qed.

(** The guard of the download: [download_file] is called only after
    [os.path.exists] said no, so its destination is not an existing
    file. *)
Lemma download_single_model_no_transfer mi :
  preserves (no_transfer f) (download_single_model download_file mi).
Proof.
  intros st.
  unfold download_single_model, call_download_file, os_path_exists, print,
    emit, getitem, bind.
  destruct (name mi) as [n|]; simpl; [|apply composable_nil].
  destruct (file_url mi) as [url|]; simpl; [|apply composable_nil].
  destruct (size_mb mi) as [size|]; simpl; [|apply composable_nil].
  case_bool_decide as Hex; simpl.
  { split; [done |].
    intros _ ?? Hin%list_elem_of_singleton. discriminate. }
  set (total := (size * 1024 * 1024)%Z).
  assert (∀ u s,
    DownloadFile u f s ∈
      [PathExists (n +:+ safetensors); Stdout (DownloadingNewModel n);
       DownloadFile url (n +:+ safetensors) total] →
    f ≠ n +:+ safetensors → False) as Hev.
  { intros u s Hin%list_elem_of_In Hne. simpl in Hin.
    intuition congruence. }
  destruct (writes_file _), (raises _); simpl;
    (split; [set_solver |];
     intros Hin u s Hd; apply (Hev u s Hd);
     intros Hf; apply Hex; by rewrite <- Hf).
Qed.

Lemma download_new_models_no_transfer l :
  preserves (no_transfer f) (download_new_models download_file l).
Proof.
  apply (preserves_for_each _), download_single_model_no_transfer.
Qed.

Lemma update_config_single_model_no_transfer mi :
  preserves (no_transfer f) (update_config_single_model mi).
Proof.
  intros st. unfold update_config_single_model, bind, getitem.
  destruct (name mi) as [n|]; simpl; [|apply composable_nil].
  destruct (vae mi); simpl; case_decide; simpl; try apply composable_nil.
  all: split; [done |].
  all: intros _ ?? Hin; by apply elem_of_nil in Hin.
Qed.

Lemma update_configs_no_transfer l :
  preserves (no_transfer f) (update_configs l).
Proof.
  apply (preserves_for_each _), update_config_single_model_no_transfer.
Qed.

Lemma next_model_no_transfer id l :
  preserves (no_transfer f) (next_model id l).
Proof. induction l as [|mi l IH]; simpl; no_transfer_tac. Qed.

Lemma update_models_no_transfer :
  preserves (no_transfer f) (update_models self download_file).
Proof.
  unfold update_models, fetch_remote_model_list, print. no_transfer_tac;
    auto using fetch_urls_no_transfer, is_update_required_no_transfer,
      download_new_models_no_transfer, update_configs_no_transfer.
Qed.

Lemma update_single_model_no_transfer id :
  preserves (no_transfer f) (update_single_model self download_file id).
Proof.
  unfold update_single_model, fetch_remote_model_list, print.
  no_transfer_tac;
    auto using fetch_urls_no_transfer, next_model_no_transfer,
      download_single_model_no_transfer,
      update_config_single_model_no_transfer.
Qed.
End no_transfer.

(** ** The inventory scan *)

Example endswith_safetensors :
  endswith "sdxl.v1.safetensors" safetensors = true ∧
  endswith "sdxl.safetensors.part" safetensors = false ∧
  endswith "safetensors" safetensors = false.
Proof. by repeat split. Qed.

Example rsplit_dot_0_examples :
  rsplit_dot_0 "sdxl.v1.safetensors" = "sdxl.v1" ∧
  rsplit_dot_0 ".safetensors" = "" ∧
  rsplit_dot_0 "README" = "README".
Proof. by repeat split. Qed.

Example local_names_example :
  local_names ["a.safetensors"; "b.ckpt"; "c.d.safetensors"; "notes"] =
    {["a"; "c.d"]}.
Proof. by vm_compute. Qed.

Lemma endswith_app p suffix : endswith (p +:+ suffix) suffix = true.
Proof.
  induction p as [|c p IH].
  - change ("" +:+ suffix) with suffix.
    destruct suffix; cbn [endswith]; by rewrite String.eqb_refl.
  - change (String c p +:+ suffix) with (String c (p +:+ suffix)).
    cbn [endswith]. rewrite IH. apply orb_true_r.
Qed.

Lemma endswith_inv s suffix :
  endswith s suffix = true → ∃ p, s = p +:+ suffix.
Proof.
  induction s as [|c s IH]; cbn [endswith].
  - rewrite orb_false_r. intros ->%String.eqb_eq. by exists "".
  - intros [->%String.eqb_eq | [p ->]%IH]%orb_true_iff.
    + by exists "".
    + by exists (String c p).
Qed.

(** Cutting [p.safetensors] at its last dot gives back [p], dots in [p] or
    not: the extension itself has only its leading dot. *)
Lemma rsplit_dot_safetensors p : rsplit_dot (p +:+ safetensors) = Some p.
Proof.
  induction p as [|c p IH]; [done |].
  change (String c p +:+ safetensors) with (String c (p +:+ safetensors)).
  simpl. by rewrite IH.
Qed.

Lemma rsplit_dot_0_safetensors p : rsplit_dot_0 (p +:+ safetensors) = p.
Proof. unfold rsplit_dot_0. by rewrite rsplit_dot_safetensors. Qed.

Lemma append_safetensors_inj p q :
  p +:+ safetensors = q +:+ safetensors → p = q.
Proof.
  intros H. apply (f_equal rsplit_dot) in H.
  rewrite !rsplit_dot_safetensors in H. congruence.
Qed.

(** A name is in the local inventory exactly when its [.safetensors] file
    is listed. *)
Lemma elem_of_local_names (files : gset string) n :
  n ∈ local_names (elements files) ↔ n +:+ safetensors ∈ files.
Proof.
  unfold local_names. rewrite elem_of_list_to_set, list_elem_of_fmap.
  split.
  - intros (file & -> & [Hends Hin%elem_of_elements]%list_elem_of_filter).
    apply endswith_inv in Hends as [p ->].
    by rewrite rsplit_dot_0_safetensors.
  - intros Hin. exists (n +:+ safetensors). split.
    + by rewrite rsplit_dot_0_safetensors.
    + apply list_elem_of_filter. split; [apply endswith_app |].
      by apply elem_of_elements.
Qed.

(** ** Fetching the catalog *)

Section fetch.
Context (self : ModelUpdater).
Context (download_file : string → string → Z → download_result).


(** Fetching reads and writes nothing of the state and never raises. *)
Lemma fetch_urls_run urls acc :
  ∃ v evs,
    (∀ st, fetch_urls self urls acc st = Result (Ret v) st evs) ∧
    Forall (λ e, is_catalog_event e = true) evs.
Proof.
  revert acc. induction urls as [|url urls IH]; intros acc.
  - exists (Some acc), []. by split.
  - simpl. unfold bind, emit; simpl.
    destruct (session_get self url) as [|[models|]].
    + exists None, [SessionGet url; LogError (FailedToFetch url)].
      split; [done | by repeat constructor].
    + destruct (IH (acc ++ models)) as (v & evs & Hrun & Hevs).
      exists v, (SessionGet url :: evs). split.
      * intros st. by rewrite Hrun.
      * by constructor.
    + destruct (IH acc) as (v & evs & Hrun & Hevs).
      exists v, (SessionGet url :: LogWarning (UnexpectedFormat url) :: evs).
      split.
      * intros st. simpl. by rewrite Hrun.
      * by repeat constructor.
Qed.

Lemma fetch_remote_model_list_run :
  ∃ v evs,
    (∀ st, fetch_remote_model_list self st = Result (Ret v) st evs) ∧
    Forall (λ e, is_catalog_event e = true) evs.
Proof. apply fetch_urls_run. Qed.

(** When both requests succeed the combined list is the records of the
    list payloads, in the order of the sources; a payload that is not a
    list contributes a warning and no record. *)
Lemma fetch_remote_model_list_payloads p1 p2 st :
  session_get self (model_config_url self) = Payload p1 →
  session_get self (vae_config_url self) = Payload p2 →
  let records p := if p is JsonList models then models else [] in
  let warning url p :=
    if p is JsonList _ then [] else [LogWarning (UnexpectedFormat url)] in
  fetch_remote_model_list self st =
    Result (Ret (Some (records p1 ++ records p2))) st
      (SessionGet (model_config_url self) ::
         warning (model_config_url self) p1 ++
       SessionGet (vae_config_url self) ::
         warning (vae_config_url self) p2).
Proof.
  intros H1 H2. unfold fetch_remote_model_list. simpl.
  unfold bind, emit; simpl. rewrite H1.
  destruct p1 as [l1|]; simpl; rewrite H2; destruct p2 as [l2|]; simpl;
    by rewrite ?app_nil_r.
Qed.

(** A pass whose fetch yields nothing: one line of output, nothing else. *)
Lemma update_models_not_list v evs st :
  fetch_remote_model_list self st = Result (Ret v) st evs →
  not_list v = true →
  update_models self download_file st = Result (Ret tt) st (evs ++ [Stdout CouldNotFetch]).
Proof.
  intros Hfetch Hv. unfold update_models, bind. rewrite Hfetch; simpl.
  by rewrite Hv.
Qed.

Lemma update_single_model_not_list v evs id st :
  fetch_remote_model_list self st = Result (Ret v) st evs →
  not_list v = true →
  update_single_model self download_file id st =
    Result (Ret tt) st (evs ++ [Stdout CouldNotFetch]).
Proof.
  intros Hfetch Hv. unfold update_single_model, bind. rewrite Hfetch; simpl.
  by rewrite Hv.
Qed.

Lemma fetch_remote_model_list_failure st :
  session_get self (model_config_url self) = RequestException ∨
  session_get self (vae_config_url self) = RequestException →
  ∃ url evs,
    fetch_remote_model_list self st =
      Result (Ret None) st (evs ++ [LogError (FailedToFetch url)]) ∧
    Forall (λ e, is_catalog_event e = true) evs.
Proof.
  intros Hfail. unfold fetch_remote_model_list. simpl.
  unfold bind, emit; simpl.
  destruct (session_get self (model_config_url self)) as [|[l1|]] eqn:H1.
  - exists (model_config_url self), [SessionGet (model_config_url self)].
    split; [done | by repeat constructor].
  - destruct Hfail as [?|H2]; [done |]. rewrite H2; simpl.
    exists (vae_config_url self),
      [SessionGet (model_config_url self); SessionGet (vae_config_url self)].
    split; [done | by repeat constructor].
  - destruct Hfail as [?|H2]; [done |]. simpl. rewrite H2; simpl.
    exists (vae_config_url self),
      [SessionGet (model_config_url self);
       LogWarning (UnexpectedFormat (model_config_url self));
       SessionGet (vae_config_url self)].
    split; [done | by repeat constructor].
Qed.
End fetch.

(** ** The steps of a pass, one by one *)

Section runs.
Context (self : ModelUpdater).
Context (download_file : string → string → Z → download_result).

(** The comprehension over the remote list touches nothing; it raises
    [KeyError] exactly when some record has no name. *)
Lemma remote_names_run l :
  ∃ o, (∀ st, remote_names l st = Result o st []) ∧
       match o with
       | Ret names => Forall named l ∧ ∀ n, n ∈ names ↔ listed l n
       | Raise e => ¬ Forall named l
       end.
Proof.
  induction l as [|mi l (o & Hrun & Ho)].
  - exists (Ret ∅). split; [done |]. split; [constructor |].
    intros n. split; [set_solver |]. intros (mi & Hin & _).
    by apply elem_of_nil in Hin.
  - simpl. unfold bind, getitem.
    destruct (name mi) as [n|] eqn:Hn; simpl.
    + destruct o as [names|e].
      * exists (Ret ({[n]} ∪ names)). split.
        { intros st. by rewrite Hrun. }
        destruct Ho as [Hall Hnames].
        split; [constructor; [by exists n | done] |].
        intros n'. rewrite elem_of_union, elem_of_singleton, Hnames.
        unfold listed. split.
        -- intros [-> | (mi' & Hin & Hn')].
           ++ exists mi. split; [left | done].
           ++ exists mi'. split; [by right | done].
        -- intros (mi' & [-> | Hin]%elem_of_cons & Hn').
           ++ left. congruence.
           ++ right. by exists mi'.
      * exists (Raise e). split.
        { intros st. by rewrite Hrun. }
        intros Hall. apply Ho. by inversion Hall.
    + exists (Raise (KeyError "name")). split; [done |].
      intros Hall. inversion Hall as [|?? [n Hsome] _]; subst. congruence.
Qed.

(** [is_update_required] lists the directory and answers whether some
    listed name has no [.safetensors] file; it changes nothing. *)
Lemma is_update_required_run l st :
  ∃ o evs,
    is_update_required l st = Result o st evs ∧
    match o with
    | Ret true =>
        Forall named l ∧
        (∃ n, listed l n ∧ n +:+ safetensors ∉ local_files st) ∧
        ∃ missing, evs = [ListDir; Stdout (MissingModels missing)]
    | Ret false =>
        Forall named l ∧
        (∀ n, listed l n → n +:+ safetensors ∈ local_files st) ∧
        evs = [ListDir]
    | Raise e => ¬ Forall named l ∧ evs = [ListDir]
    end.
Proof.
  destruct (remote_names_run l) as (o & Hrun & Ho).
  unfold is_update_required, bind, os_listdir, print, emit; simpl.
  rewrite Hrun; simpl. destruct o as [names|e]; simpl.
  - destruct Ho as [Hall Hnames]. case_decide as Hmissing; simpl.
    + exists (Ret false), [ListDir]. repeat split; [done |].
      intros n Hn%Hnames. apply elem_of_local_names.
      destruct (decide (n ∈ local_names (elements (local_files st))))
        as [|Hnot]; [done |].
      exfalso. apply (not_elem_of_empty (C:=gset string) n).
      rewrite <- Hmissing. by apply elem_of_difference.
    + exists (Ret true). eexists. repeat split; [done | | by eexists].
      apply set_choose_L in Hmissing as [n [Hn Hloc]%elem_of_difference].
      exists n. split; [by apply Hnames |].
      by rewrite <- elem_of_local_names.
  - by exists (Raise e), [ListDir].
Qed.

(** Its answer depends on the directory alone. *)
Lemma is_update_required_files l st st' :
  local_files st = local_files st' →
  outcome_of (is_update_required l st) = outcome_of (is_update_required l st')
  ∧ events_of (is_update_required l st) = events_of (is_update_required l st').
Proof.
  intros Hfiles. destruct (remote_names_run l) as (o & Hrun & _).
  unfold is_update_required, bind, os_listdir, print, emit; simpl.
  rewrite !Hrun, Hfiles; simpl. destruct o; [|done].
  by case_decide.
Qed.
(** *** One download *)

Lemma download_single_model_incomplete mi :
  ¬ complete mi →
  ∃ key, ∀ st,
    download_single_model download_file mi st =
      Result (Raise (KeyError key)) st [].
Proof.
  intros Hmi. unfold download_single_model, bind, getitem.
  destruct (name mi) as [n|] eqn:Hn; simpl; [|by eexists].
  destruct (file_url mi) as [url|] eqn:Hurl; simpl; [|by eexists].
  destruct (size_mb mi) as [size|] eqn:Hsize; simpl; [|by eexists].
  destruct Hmi. unfold complete. rewrite Hn, Hurl, Hsize. by repeat split.
Qed.

Lemma download_single_model_present mi n st :
  complete mi → name mi = Some n → n +:+ safetensors ∈ local_files st →
  download_single_model download_file mi st =
    Result (Ret tt) st [PathExists (n +:+ safetensors)].
Proof.
  intros (_ & [url Hurl] & [size Hsize]) Hn Hin.
  unfold download_single_model, bind, getitem, os_path_exists.
  rewrite Hn, Hurl, Hsize; simpl. by rewrite bool_decide_eq_true_2.
Qed.

Lemma download_single_model_absent mi n url size st :
  name mi = Some n → file_url mi = Some url → size_mb mi = Some size →
  n +:+ safetensors ∉ local_files st →
  let f := n +:+ safetensors in
  let total := (size * 1024 * 1024)%Z in
  let dr := download_file url f total in
  download_single_model download_file mi st =
    Result (if raises dr then Raise DownloadError else Ret tt)
      (if writes_file dr then add_file f st else st)
      [PathExists f; Stdout (DownloadingNewModel n); DownloadFile url f total].
Proof.
  intros Hn Hurl Hsize Hin.
  unfold download_single_model, call_download_file, bind, getitem,
    os_path_exists, print, emit, create_file.
  rewrite Hn, Hurl, Hsize; simpl. rewrite bool_decide_eq_false_2 by done.
  simpl. by destruct (writes_file _), (raises _).
Qed.

(** What one download that does not raise leaves behind. *)
Lemma download_single_model_returns mi n st :
  complete mi → name mi = Some n →
  (∀ dr, transfer_of download_file mi = Some dr → raises dr = false) →
  let f := n +:+ safetensors in
  let r := download_single_model download_file mi st in
  outcome_of r = Ret tt ∧
  model_configs (state_of r) = model_configs st ∧
  vae_configs (state_of r) = vae_configs st ∧
  local_files st ⊆ local_files (state_of r) ∧
  PathExists f ∈ events_of r ∧
  (∀ g, g ∈ local_files (state_of r) →
        g ∈ local_files st ∨
        g = f ∧ ∃ url size, DownloadFile url f size ∈ events_of r) ∧
  (f ∈ local_files st ∨ ∃ url size, DownloadFile url f size ∈ events_of r) ∧
  (transfer_of download_file mi = Some download_ok →
   f ∈ local_files (state_of r)).
Proof.
  intros Hmi Hn Hraise f.
  destruct (decide (f ∈ local_files st)) as [Hin|Hin].
  - intros r. unfold r. rewrite (download_single_model_present mi n) by done.
    simpl. repeat split; try done; [set_solver | by left | by left].
  - pose proof Hmi as (_ & [url Hurl] & [size Hsize]).
    intros r. unfold r.
    rewrite (download_single_model_absent mi n url size) by done.
    fold f. set (total := (size * 1024 * 1024)%Z).
    assert (transfer_of download_file mi = Some (download_file url f total))
      as Htr by (unfold transfer_of; by rewrite Hn, Hurl, Hsize).
    rewrite (Hraise _ Htr). simpl.
    assert (DownloadFile url f total ∈
      [PathExists f; Stdout (DownloadingNewModel n); DownloadFile url f total])
      as Hev by (do 2 right; left).
    split; [done |].
    split; [by destruct (writes_file _) |].
    split; [by destruct (writes_file _) |].
    split; [destruct (writes_file _); simpl; [apply union_subseteq_r | done] |].
    split; [left |].
    split.
    { intros g. destruct (writes_file _); simpl; [|by left].
      intros [->%elem_of_singleton | Hg]%elem_of_union; [right | by left].
      split; [done | by exists url, total]. }
    split; [right; by exists url, total |].
    rewrite Htr. intros [= ->]. simpl.
    apply elem_of_union_l. by apply elem_of_singleton.
Qed.

(** *** One merge *)

Lemma update_config_single_model_run mi n st :
  name mi = Some n →
  let r := update_config_single_model mi st in
  outcome_of r = Ret tt ∧ events_of r = [] ∧
  local_files (state_of r) = local_files st ∧
  partition_of mi (state_of r) =
    (if decide (n ∈ dom (partition_of mi st)) then partition_of mi st
     else <[n := mi]> (partition_of mi st)) ∧
  other_partition_of mi (state_of r) = other_partition_of mi st.
Proof.
  intros Hn. unfold update_config_single_model, bind, getitem,
    partition_of, other_partition_of, configs_of, is_vae.
  rewrite Hn; simpl. destruct (vae mi); simpl; by case_decide.
Qed.

Lemma update_config_single_model_unnamed mi st :
  name mi = None →
  update_config_single_model mi st = Result (Raise (KeyError "name")) st [].
Proof.
  intros Hn. unfold update_config_single_model, bind, getitem. by rewrite Hn.
Qed.
(** *** The two loops *)

(** When no download raises, the loop visits every record. *)
Lemma download_new_models_returns l st :
  Forall complete l →
  (∀ mi dr, mi ∈ l → transfer_of download_file mi = Some dr →
            raises dr = false) →
  let r := download_new_models download_file l st in
  outcome_of r = Ret tt ∧
  model_configs (state_of r) = model_configs st ∧
  vae_configs (state_of r) = vae_configs st ∧
  local_files st ⊆ local_files (state_of r) ∧
  ∀ mi n, mi ∈ l → name mi = Some n →
    let f := n +:+ safetensors in
    PathExists f ∈ events_of r ∧
    (f ∈ local_files st ∨ ∃ url size, DownloadFile url f size ∈ events_of r) ∧
    (transfer_of download_file mi = Some download_ok →
     f ∈ local_files (state_of r)).
Proof.
  unfold download_new_models. revert st.
  induction l as [|d l IH]; intros st Hall Hraise.
  - simpl. do 4 (split; [done |]).
    intros mi n Hin. by apply elem_of_nil in Hin.
  - inversion Hall as [|?? Hd Hl]; subst.
    pose proof Hd as ([nd Hnd] & _).
    destruct (download_single_model_returns d nd st Hd Hnd)
      as (Ho & Hmc & Hvc & Hsub & Hpe & Hnew & Hatt & Hok).
    { intros dr. apply Hraise. left. }
    rewrite for_each_cons, (bind_ret_run _ _ _ tt) by done.
    set (r1 := download_single_model download_file d st) in *.
    destruct (IH (state_of r1) Hl) as (Ho' & Hmc' & Hvc' & Hsub' & Hall').
    { intros mi dr Hin. apply Hraise. by right. }
    set (r2 := for_each (download_single_model download_file) l (state_of r1))
      in *.
    simpl. split; [done |].
    split; [congruence |]. split; [congruence |].
    split; [by etrans |].
    intros mi n [-> | Hin]%elem_of_cons Hn.
    + assert (n = nd) as -> by congruence.
      split; [apply elem_of_app; by left |].
      split.
      * destruct Hatt as [? | (url & size & Hev)]; [by left | right].
        exists url, size. apply elem_of_app. by left.
      * intros Htr. by apply Hsub', Hok.
    + destruct (Hall' mi n Hin Hn) as (Hpe' & Hatt' & Hok').
      split; [apply elem_of_app; by right |].
      split; [| done].
      destruct Hatt' as [Hf | (url & size & Hev)].
      * destruct (Hnew _ Hf) as [? | (Heq & url & size & Hev)]; [by left |].
        right. exists url, size. apply elem_of_app. left. by rewrite Heq.
      * right. exists url, size. apply elem_of_app. by right.
Qed.

(** The merge loop reaches every record when all of them have names. *)
Lemma update_configs_run l st :
  Forall named l →
  let r := update_configs l st in
  outcome_of r = Ret tt ∧ events_of r = [] ∧
  local_files (state_of r) = local_files st ∧
  ∀ mi n, mi ∈ l → name mi = Some n → n ∈ dom (partition_of mi (state_of r)).
Proof.
  unfold update_configs. revert st.
  induction l as [|d l IH]; intros st Hall.
  - simpl. do 3 (split; [done |]).
    intros mi n Hin. by apply elem_of_nil in Hin.
  - inversion Hall as [|?? [nd Hnd] Hl]; subst.
    destruct (update_config_single_model_run d nd st Hnd)
      as (Ho & Hev & Hfiles & Hpart & _).
    rewrite for_each_cons, (bind_ret_run _ _ _ tt) by done.
    set (r1 := update_config_single_model d st) in *.
    destruct (IH (state_of r1) Hl) as (Ho' & Hev' & Hfiles' & Hall').
    pose proof (update_configs_configs_kept l (state_of r1)) as [Hkm Hkv].
    unfold update_configs in Hkm, Hkv.
    set (r2 := for_each update_config_single_model l (state_of r1)) in *.
    simpl. split; [done |]. split; [by rewrite Hev, Hev' |].
    split; [congruence |].
    intros mi n [-> | Hin]%elem_of_cons Hn; [| by apply Hall'].
    assert (n = nd) as -> by congruence.
    assert (nd ∈ dom (partition_of d (state_of r1))) as Hdom.
    { rewrite Hpart. case_decide; [done |].
      rewrite dom_insert_L. apply elem_of_union_l. by apply elem_of_singleton. }
    revert Hdom. unfold partition_of, configs_of.
    destruct (is_vae d); by apply subseteq_dom.
Qed.
End runs.

(** ** A whole pass *)

Section pass.
Context (self : ModelUpdater).
Context (download_file : string → string → Z → download_result).

(** Whatever the merge loop leaves in a partition was there before or is a
    record of the list, filed under its own name and kind. *)
Lemma update_configs_entries l st vae_kind n x :
  configs_of vae_kind (state_of (update_configs l st)) !! n = Some x →
  configs_of vae_kind st !! n = Some x ∨
  x ∈ l ∧ name x = Some n ∧ is_vae x = vae_kind.
Proof.
  unfold update_configs. revert st.
  induction l as [|d l IH]; intros st; [by left |].
  rewrite for_each_cons.
  destruct (name d) as [nd|] eqn:Hnd.
  - destruct (update_config_single_model_run d nd st Hnd)
      as (Ho & _ & _ & Hpart & Hother).
    rewrite (bind_ret_run _ _ _ tt) by done. simpl.
    set (st1 := state_of (update_config_single_model d st)) in *.
    intros [Hold | (Hin & Hn & Hk)]%IH.
    + revert Hpart Hother Hold. unfold partition_of, other_partition_of.
      destruct (decide (is_vae d = vae_kind)) as [<- | Hne].
      * intros -> _. case_decide; [by left |].
        intros [[<- <-] | [_ ?]]%lookup_insert_Some; [right | by left].
        split; [left | done].
      * replace vae_kind with (negb (is_vae d))
          by (destruct (is_vae d), vae_kind; simpl; congruence).
        intros _ -> ?. by left.
    + right. split; [by right | done].
  - rewrite (bind_raise_run _ _ _ (KeyError "name"))
      by (by rewrite update_config_single_model_unnamed).
    rewrite update_config_single_model_unnamed by done. by left.
Qed.

(** *** [next] over the generator *)

Lemma next_model_none id l st :
  Forall (λ mi, ∃ n, name mi = Some n ∧ n ≠ id) l →
  next_model id l st = Result (Ret None) st [].
Proof.
  induction 1 as [|mi l (n & Hn & Hne) _ IH]; [done |].
  simpl. unfold bind, getitem. rewrite Hn; simpl.
  rewrite (proj2 (String.eqb_neq n id)) by done. by rewrite IH.
Qed.

Lemma next_model_first id l1 mi l2 st :
  Forall (λ mi, ∃ n, name mi = Some n ∧ n ≠ id) l1 →
  name mi = Some id →
  next_model id (l1 ++ mi :: l2) st = Result (Ret (Some mi)) st [].
Proof.
  intros Hl1 Hmi. induction Hl1 as [|mi' l (n & Hn & Hne) _ IH]; simpl.
  - unfold bind, getitem. rewrite Hmi; simpl. by rewrite String.eqb_refl.
  - unfold bind, getitem. rewrite Hn; simpl.
    rewrite (proj2 (String.eqb_neq n id)) by done. by rewrite IH.
Qed.

(** *** The three ways a pass over a non-empty catalog goes *)

Lemma not_list_cons l : l ≠ [] → not_list (Some l) = false.
Proof. by destruct l. Qed.

(** Every listed name has its file: nothing is done. *)
Lemma update_models_no_update l evs st :
  fetch_remote_model_list self st = Result (Ret (Some l)) st evs →
  l ≠ [] → Forall named l →
  (∀ n, listed l n → n +:+ safetensors ∈ local_files st) →
  update_models self download_file st =
    Result (Ret tt) st (evs ++ [ListDir; Stdout NoUpdatesRequired]).
Proof.
  intros Hfetch Hl Hnamed Hpresent.
  destruct (is_update_required_run l st) as (o & evs' & Hrun & Ho).
  unfold update_models, bind, print, emit. rewrite Hfetch; run_simpl.
  rewrite not_list_cons by done. rewrite Hrun; run_simpl.
  destruct o as [[|]|e].
  - destruct Ho as (_ & (n & Hn & Hmiss) & _). destruct Hmiss. auto.
  - destruct Ho as (_ & _ & ->). done.
  - by destruct Ho as [? _].
Qed.

(** Some listed name has no file, every record is complete and no download
    raises: both loops run over the whole list. *)
Lemma update_models_full_run l evs st :
  fetch_remote_model_list self st = Result (Ret (Some l)) st evs →
  Forall complete l →
  (∀ mi dr, mi ∈ l → transfer_of download_file mi = Some dr →
            raises dr = false) →
  (∃ n, listed l n ∧ n +:+ safetensors ∉ local_files st) →
  let r1 := download_new_models download_file l st in
  let r2 := update_configs l (state_of r1) in
  ∃ missing,
    update_models self download_file st =
      Result (Ret tt) (state_of r2)
        (evs ++ [ListDir; Stdout (MissingModels missing)] ++ events_of r1 ++
         [Stdout UpdatesCompleted]).
Proof.
  intros Hfetch Hcomplete Hraise (n & (mi & Hin & Hn) & Hmiss) r1 r2.
  assert (Forall named l) as Hnamed.
  { eapply Forall_impl; [exact Hcomplete |]. by intros ? [? _]. }
  assert (l ≠ []) as Hl by (intros ->; by apply elem_of_nil in Hin).
  destruct (is_update_required_run l st) as (o & evs' & Hrun & Ho).
  destruct (download_new_models_returns download_file l st Hcomplete Hraise)
    as (Hr1 & _).
  destruct (update_configs_run l (state_of r1) Hnamed)
    as (Hr2 & Hev2 & _).
  fold r1 in Hr1. fold r2 in Hr2, Hev2.
  destruct o as [[|]|e].
  - destruct Ho as (_ & _ & missing & ->). exists missing.
    unfold update_models, bind, print, emit. rewrite Hfetch; run_simpl.
    rewrite not_list_cons by done. rewrite Hrun; run_simpl.
    fold r1. rewrite Hr1; run_simpl. fold r2. rewrite Hr2, Hev2; run_simpl.
    done.
  - destruct Ho as (_ & Hpresent & _). destruct Hmiss. apply Hpresent.
    by exists mi.
  - by destruct Ho as [? _].
Qed.

End pass.

(** ** A pass after a pass *)

Lemma fetches_app e1 e2 : fetches (e1 ++ e2) = fetches e1 + fetches e2.
Proof. unfold fetches. by rewrite filter_app, length_app. Qed.

Lemma fetches_catalog evs :
  Forall (λ e, is_catalog_event e = true) evs → fetches evs = 0.
Proof.
  unfold fetches. induction 1 as [|e evs He _ IH]; [done |].
  rewrite filter_cons_False; [done |]. by destruct e.
Qed.

Lemma fetches_0_not_elem evs url f size :
  fetches evs = 0 → DownloadFile url f size ∉ evs.
Proof.
  unfold fetches. intros Hlen Hin.
  assert (DownloadFile url f size ∈ filter (λ e, is_download e = true) evs)
    as Hfil by (by apply list_elem_of_filter).
  destruct (filter _ evs); [by apply elem_of_nil in Hfil | done].
Qed.

Section again.
Context (self : ModelUpdater).
Context (download_file : string → string → Z → download_result).

Lemma download_new_models_files l st :
  local_files st ⊆ local_files (state_of (download_new_models download_file l st)).
Proof. apply (download_new_models_no_transfer download_file "" l st). Qed.

(** A pass with a non-empty catalog, step by step. *)
Lemma update_models_steps l evs st :
  fetch_remote_model_list self st = Result (Ret (Some l)) st evs →
  l ≠ [] →
  let ri := is_update_required l st in
  let rd := download_new_models download_file l st in
  let rc := update_configs l (state_of rd) in
  update_models self download_file st =
    match outcome_of ri with
    | Raise e => Result (Raise e) st (evs ++ events_of ri)
    | Ret false =>
        Result (Ret tt) st (evs ++ events_of ri ++ [Stdout NoUpdatesRequired])
    | Ret true =>
        match outcome_of rd with
        | Raise e =>
            Result (Raise e) (state_of rd) (evs ++ events_of ri ++ events_of rd)
        | Ret _ =>
            match outcome_of rc with
            | Raise e =>
                Result (Raise e) (state_of rc)
                  (evs ++ events_of ri ++ events_of rd ++ events_of rc)
            | Ret _ =>
                Result (Ret tt) (state_of rc)
                  (evs ++ events_of ri ++ events_of rd ++ events_of rc ++
                   [Stdout UpdatesCompleted])
            end
        end
    end.
Proof.
  intros Hfetch Hl ri rd rc.
  destruct (is_update_required_run l st) as (o & evs' & Hrun & _).
  unfold update_models, bind, print, emit. rewrite Hfetch; run_simpl.
  rewrite not_list_cons by done. unfold ri. rewrite Hrun; run_simpl.
  destruct o as [[|]|e]; [| done | done].
  fold rd. destruct (outcome_of rd); [| done]. run_simpl.
  fold rc. by destruct (outcome_of rc).
Qed.

(** Downloading again, from a directory that has at least the files of the
    first run: the same records are visited and nothing is transferred. *)
Lemma download_single_model_again mi st st' :
  let r := download_single_model download_file mi st in
  (∀ url f size, DownloadFile url f size ∈ events_of r →
                 download_file url f size = download_ok) →
  local_files (state_of r) ⊆ local_files st' →
  let r' := download_single_model download_file mi st' in
  outcome_of r' = outcome_of r ∧ state_of r' = st' ∧ fetches (events_of r') = 0.
Proof.
  destruct (name mi) as [n|] eqn:Hn; cycle 1.
  { destruct (download_single_model_incomplete download_file mi)
      as [key Hrun].
    { intros ([? ?] & _). congruence. }
    intros r _ _ r'. unfold r, r'. by rewrite !Hrun. }
  destruct (file_url mi) as [url|] eqn:Hurl; cycle 1.
  { destruct (download_single_model_incomplete download_file mi)
      as [key Hrun].
    { intros (_ & [? ?] & _). congruence. }
    intros r _ _ r'. unfold r, r'. by rewrite !Hrun. }
  destruct (size_mb mi) as [size|] eqn:Hsize; cycle 1.
  { destruct (download_single_model_incomplete download_file mi)
      as [key Hrun].
    { intros (_ & _ & [? ?]). congruence. }
    intros r _ _ r'. unfold r, r'. by rewrite !Hrun. }
  assert (complete mi) as Hmi.
  { unfold complete. rewrite Hn, Hurl, Hsize. by repeat split. }
  destruct (decide (n +:+ safetensors ∈ local_files st)) as [Hin|Hin].
  - intros r. unfold r.
    rewrite (download_single_model_present download_file mi n st) by done.
    simpl. intros _ Hsub.
    rewrite (download_single_model_present download_file mi n st') by auto.
    done.
  - intros r. unfold r.
    rewrite (download_single_model_absent download_file mi n url size st)
      by done.
    simpl. intros Hok. rewrite Hok by (do 2 right; left). simpl.
    intros Hsub.
    rewrite (download_single_model_present download_file mi n st'); [done.. |].
    apply Hsub. apply elem_of_union_l. by apply elem_of_singleton.
Qed.

Lemma download_new_models_again l st st' :
  let r := download_new_models download_file l st in
  (∀ url f size, DownloadFile url f size ∈ events_of r →
                 download_file url f size = download_ok) →
  local_files (state_of r) ⊆ local_files st' →
  let r' := download_new_models download_file l st' in
  outcome_of r' = outcome_of r ∧ state_of r' = st' ∧ fetches (events_of r') = 0.
Proof.
  unfold download_new_models. revert st.
  induction l as [|d l IH]; intros st; [done |].
  rewrite !for_each_cons.
  set (r1 := download_single_model download_file d st).
  destruct (outcome_of r1) as [[]|e] eqn:Ho1.
  - rewrite (bind_ret_run _ _ st tt) by done. fold r1. run_simpl.
    intros Hok Hsub.
    destruct (download_single_model_again d st st') as (Ho1' & Hst1' & Hf1').
    { intros url f size Hev. apply Hok, elem_of_app. by left. }
    { etrans; [| exact Hsub]. apply download_new_models_files. }
    fold r1 in Ho1'. rewrite Ho1 in Ho1'.
    rewrite (bind_ret_run _ _ st' tt) by done. run_simpl. rewrite Hst1'.
    destruct (IH (state_of r1)) as (Ho' & Hst' & Hf').
    { intros url f size Hev. apply Hok, elem_of_app. by right. }
    { exact Hsub. }
    split; [done |]. split; [done |].
    by rewrite fetches_app, Hf1', Hf'.
  - rewrite (bind_raise_run _ _ st e) by done. fold r1. run_simpl.
    intros Hok Hsub.
    destruct (download_single_model_again d st st') as (Ho1' & Hst1' & Hf1');
      [done.. |].
    fold r1 in Ho1'. rewrite Ho1 in Ho1'.
    by rewrite (bind_raise_run _ _ st' e) by done.
Qed.

(** When the loop returns and what it transferred arrived, every listed
    name has its file. *)
Lemma download_new_models_all_present l st :
  let r := download_new_models download_file l st in
  outcome_of r = Ret tt →
  (∀ url f size, DownloadFile url f size ∈ events_of r →
                 download_file url f size = download_ok) →
  ∀ n, listed l n → n +:+ safetensors ∈ local_files (state_of r).
Proof.
  unfold download_new_models. revert st.
  induction l as [|d l IH]; intros st.
  { intros _ _ n (mi & Hin & _). by apply elem_of_nil in Hin. }
  rewrite for_each_cons.
  set (r1 := download_single_model download_file d st).
  destruct (outcome_of r1) as [[]|e] eqn:Ho1; cycle 1.
  { by rewrite (bind_raise_run _ _ st e) by done. }
  rewrite (bind_ret_run _ _ st tt) by done. fold r1. run_simpl.
  intros Ho Hok n (mi & [-> | Hin]%elem_of_cons & Hn).
  - apply (download_new_models_files l (state_of r1)).
    destruct (decide (complete d)) as [Hd | Hd]; cycle 1.
    { destruct (download_single_model_incomplete download_file d Hd)
        as [key Hrun].
      unfold r1 in Ho1. by rewrite Hrun in Ho1. }
    destruct (decide (n +:+ safetensors ∈ local_files st)) as [Hf | Hf].
    + unfold r1.
      by rewrite (download_single_model_present download_file d n st).
    + destruct Hd as (_ & [url Hurl] & [size Hsize]).
      assert (download_file url (n +:+ safetensors) (size * 1024 * 1024)%Z =
              download_ok) as Hdr.
      { apply Hok, elem_of_app. left. unfold r1.
        rewrite (download_single_model_absent download_file d n url size st)
          by done.
        simpl. do 2 right. left. }
      unfold r1.
      rewrite (download_single_model_absent download_file d n url size st)
        by done.
      rewrite Hdr. simpl. apply elem_of_union_l. by apply elem_of_singleton.
  - apply IH; [done | | by exists mi].
    intros url f size Hev. apply Hok, elem_of_app. by right.
Qed.
End again.

(** * The properties of the updater *)

Lemma merges_same st : merges st st = 0.
Proof. unfold merges. lia. Qed.

Section claims.
Context (self : ModelUpdater).
Context (download_file : string → string → Z → download_result).

(** When some listed name has no file, every record is complete and no
    download raises, the pass checks and, where needed, fetches every
    record of the list and leaves every name in its partition. *)
Lemma update_models_every_record l evs st :
  fetch_remote_model_list self st = Result (Ret (Some l)) st evs →
  Forall complete l →
  (∀ mi dr, mi ∈ l → transfer_of download_file mi = Some dr →
            raises dr = false) →
  (∃ n, listed l n ∧ n +:+ safetensors ∉ local_files st) →
  let r := update_models self download_file st in
  outcome_of r = Ret tt ∧
  ∀ mi n, mi ∈ l → name mi = Some n →
    let f := n +:+ safetensors in
    PathExists f ∈ events_of r ∧
    (f ∈ local_files st ∨ ∃ url size, DownloadFile url f size ∈ events_of r) ∧
    (transfer_of download_file mi = Some download_ok →
     f ∈ local_files (state_of r)) ∧
    n ∈ dom (partition_of mi (state_of r)) ∧
    (∀ x, partition_of mi (state_of r) !! n = Some x →
          partition_of mi st !! n = Some x ∨
          x ∈ l ∧ name x = Some n ∧ is_vae x = is_vae mi).
Proof.
  intros Hfetch Hcomplete Hraise Hmissing.
  destruct (update_models_full_run self download_file l evs st)
    as (missing & Hrun); [done.. |].
  cbv zeta. rewrite Hrun. run_simpl.
  assert (Forall named l) as Hnamed.
  { eapply Forall_impl; [exact Hcomplete |]. by intros ? [? _]. }
  destruct (download_new_models_returns download_file l st Hcomplete Hraise)
    as (_ & Hmc & Hvc & _ & Hdl).
  set (r1 := download_new_models download_file l st) in *.
  destruct (update_configs_run l (state_of r1) Hnamed)
    as (_ & _ & Hfiles & Hdom).
  pose proof (update_configs_entries l (state_of r1)) as Hentries.
  set (r2 := update_configs l (state_of r1)) in *.
  split; [done |].
  intros mi n Hin Hn. destruct (Hdl mi n Hin Hn) as (Hpe & Hatt & Hok).
  assert (∀ e, e ∈ events_of r1 →
    e ∈ evs ++ [ListDir; Stdout (MissingModels missing)] ++ events_of r1 ++
        [Stdout UpdatesCompleted]) as Hev.
  { intros e He. apply elem_of_app. right. do 2 right.
    apply elem_of_app. by left. }
  split; [by apply Hev |].
  split.
  { destruct Hatt as [? | (url & size & ?)]; [by left | right].
    exists url, size. by apply Hev. }
  split; [by rewrite Hfiles |].
  split; [by apply Hdom |].
  intros x [Hold | ?]%Hentries; [left | by right].
  revert Hold. unfold partition_of, configs_of.
  destruct (is_vae mi); congruence.
Qed.

(** C1: if a request for a catalog document fails, [update_models] returns
    without touching the directory or the configuration store: the state
    after the pass is the state before it.  The failure is reported by an
    error in the log and by the line "Could not fetch remote model list";
    before them the pass only talked to the catalog sources. *)
Theorem fetch_failure_aborts_pass st :
  session_get self (model_config_url self) = RequestException ∨
  session_get self (vae_config_url self) = RequestException →
  let r := update_models self download_file st in
  outcome_of r = Ret tt ∧
  state_of r = st ∧
  ∃ url evs,
    events_of r =
      evs ++ [LogError (FailedToFetch url); Stdout CouldNotFetch] ∧
    Forall (λ e, is_catalog_event e = true) evs.
Proof.
  intros Hfail.
  destruct (fetch_remote_model_list_failure self st Hfail)
    as (url & evs & Hfetch & Hevs).
  cbv zeta.
  rewrite (update_models_not_list self download_file _ _ st Hfetch) by done.
  simpl. do 2 (split; [done |]). exists url, evs.
  by rewrite <- app_assoc.
Qed.

(** C2 (amended): a fetch failure that [download_file] answers by
    returning without the file, rather than by raising, does not stop the
    pass.  For a catalog [A; B; C] where the transfer of [B] fails in this
    way and the transfers of [A] and [C] do not raise, [update_models]
    returns normally, and for [A] and for [C] the transfer is attempted
    unless the file is there, the file is there afterwards when the
    transfer succeeded, and the name is in its partition of the
    configuration store. *)
Theorem returned_fetch_failure_does_not_abort A B C nB drB evs st :
  fetch_remote_model_list self st = Result (Ret (Some [A; B; C])) st evs →
  complete A → complete B → complete C →
  name B = Some nB → nB +:+ safetensors ∉ local_files st →
  transfer_of download_file B = Some drB →
  writes_file drB = false → raises drB = false →
  (∀ dr, transfer_of download_file A = Some dr → raises dr = false) →
  (∀ dr, transfer_of download_file C = Some dr → raises dr = false) →
  let r := update_models self download_file st in
  outcome_of r = Ret tt ∧
  ∀ X n, X = A ∨ X = C → name X = Some n →
    let f := n +:+ safetensors in
    (f ∈ local_files st ∨ ∃ url size, DownloadFile url f size ∈ events_of r) ∧
    (transfer_of download_file X = Some download_ok →
     f ∈ local_files (state_of r)) ∧
    n ∈ dom (partition_of X (state_of r)).
Proof.
  intros Hfetch HA HB HC HnB HfB HtrB _ HrB HrA HrC.
  destruct (update_models_every_record [A; B; C] evs st) as [Ho Hall].
  - done.
  - by repeat apply Forall_cons_2.
  - intros mi dr Hin%list_elem_of_In Htr. simpl in Hin.
    destruct Hin as [<- | [<- | [<- | []]]]; [by apply HrA | | by apply HrC].
    congruence.
  - exists nB. split; [| done]. exists B. split; [| done]. right. left.
  - split; [done |].
    intros X n HX Hn.
    assert (X ∈ [A; B; C]) as Hin.
    { destruct HX as [-> | ->]; [left | do 2 right; left]. }
    destruct (Hall X n Hin Hn) as (_ & Hatt & Hok & Hdom & _). done.
Qed.

(** C3 (amended): for a catalog of exactly one VAE record named [v1] whose
    file [v1.safetensors] is in the directory, [update_models] lists the
    directory, reports that no update is required and returns: it fetches
    nothing and merges nothing, and the configuration store is as it
    was. *)
Theorem present_vae_is_neither_fetched_nor_merged v1 evs st :
  fetch_remote_model_list self st = Result (Ret (Some [v1])) st evs →
  name v1 = Some "v1" → is_vae v1 = true →
  "v1.safetensors" ∈ local_files st →
  let r := update_models self download_file st in
  r = Result (Ret tt) st (evs ++ [ListDir; Stdout NoUpdatesRequired]) ∧
  fetches (events_of r) = 0 ∧
  merges st (state_of r) = 0 ∧
  vae_configs (state_of r) = vae_configs st.
Proof.
  intros Hfetch Hn _ Hfile. cbv zeta.
  rewrite (update_models_no_update self download_file [v1] evs st);
    [| done | done | | ].
  - simpl. split; [done |]. split; [| by rewrite merges_same].
    destruct (fetch_remote_model_list_run self) as (v & evs' & Hrun & Hevs).
    rewrite Hrun in Hfetch. injection Hfetch as _ <-.
    by rewrite fetches_app, (fetches_catalog _ Hevs).
  - constructor; [by exists "v1" | constructor].
  - intros n (mi & ->%list_elem_of_singleton & Hmi).
    by replace n with "v1" by congruence.
Qed.


(** C5: an entry of the configuration store is never replaced.  If the
    partition [vae_kind] holds [d] under the name [A], then it still holds
    [d] under [A] after any method of the updater has run, whatever the
    catalog says about [A], and whether the method returns or raises. *)
Theorem stored_entry_is_never_replaced vae_kind A d st :
  holds_entry vae_kind A d st →
  holds_entry vae_kind A d (state_of (update_models self download_file st)) ∧
  (∀ id, holds_entry vae_kind A d
           (state_of (update_single_model self download_file id st))) ∧
  (∀ mi, holds_entry vae_kind A d
           (state_of (update_config_single_model mi st))) ∧
  (∀ l, holds_entry vae_kind A d (state_of (update_configs l st))) ∧
  (∀ mi, holds_entry vae_kind A d
           (state_of (download_single_model download_file mi st))) ∧
  (∀ l, holds_entry vae_kind A d
          (state_of (download_new_models download_file l st))) ∧
  (∀ l, holds_entry vae_kind A d (state_of (is_update_required l st))) ∧
  holds_entry vae_kind A d (state_of (fetch_remote_model_list self st)).
Proof.
  intros Hd.
  assert (∀ T (m : M T), preserves configs_kept m →
                         holds_entry vae_kind A d (state_of (m st))) as Hkept.
  { intros T m Hm. destruct (Hm st) as [Hmc Hvc].
    revert Hd. unfold holds_entry, configs_of. destruct vae_kind.
    - intros Hd. by eapply lookup_weaken.
    - intros Hd. by eapply lookup_weaken. }
  repeat split; intros; apply Hkept.
  - apply update_models_configs_kept.
  - apply update_single_model_configs_kept.
  - apply update_config_single_model_configs_kept.
  - apply update_configs_configs_kept.
  - apply download_single_model_configs_kept.
  - apply download_new_models_configs_kept.
  - apply is_update_required_configs_kept.
  - apply fetch_remote_model_list_configs_kept.
Qed.

(** C6: a file that exists is never fetched again.  If [A.safetensors] is
    in the directory, then neither [update_models] nor [update_single_model]
    (for any name) calls [download_file] with that destination, whatever
    URL and size the catalog gives for [A], and whether the pass returns or
    raises; and the file is still there afterwards, so the same holds of
    every later pass. *)
Theorem existing_file_is_never_fetched A st :
  A +:+ safetensors ∈ local_files st →
  (∀ url size,
     DownloadFile url (A +:+ safetensors) size ∉
       events_of (update_models self download_file st)) ∧
  A +:+ safetensors ∈
    local_files (state_of (update_models self download_file st)) ∧
  ∀ id,
    (∀ url size,
       DownloadFile url (A +:+ safetensors) size ∉
         events_of (update_single_model self download_file id st)) ∧
    A +:+ safetensors ∈
      local_files (state_of (update_single_model self download_file id st)).
Proof.
  intros Hfile.
  destruct (update_models_no_transfer self download_file (A +:+ safetensors) st)
    as [Hsub Hno].
  split; [intros url size; by apply Hno |].
  split; [by apply Hsub |].
  intros id.
  destruct (update_single_model_no_transfer self download_file
              (A +:+ safetensors) id st) as [Hsub' Hno'].
  split; [intros url size; by apply Hno' | by apply Hsub'].
Qed.

(** C7: a second pass right after a first one does nothing.  If every
    transfer of the first [update_models] succeeded (the file was written
    and [download_file] returned), then [update_models] run again on the
    state the first run left, against the same catalog, attempts no
    transfer and adds no key to the configuration store: it leaves the
    state as it found it. *)
Theorem second_pass_fetches_and_merges_nothing st :
  let r1 := update_models self download_file st in
  (∀ url f size, DownloadFile url f size ∈ events_of r1 →
                 download_file url f size = download_ok) →
  let r2 := update_models self download_file (state_of r1) in
  fetches (events_of r2) = 0 ∧
  merges (state_of r1) (state_of r2) = 0 ∧
  state_of r2 = state_of r1.
Proof.
  cbv zeta.
  assert (∀ s, state_of (update_models self download_file s) = s →
               merges s (state_of (update_models self download_file s)) = 0)
    as Hmerges by (intros s ->; apply merges_same).
  enough ((∀ url f size,
             DownloadFile url f size ∈
               events_of (update_models self download_file st) →
             download_file url f size = download_ok) →
          fetches (events_of (update_models self download_file
                     (state_of (update_models self download_file st)))) = 0 ∧
          state_of (update_models self download_file
                      (state_of (update_models self download_file st))) =
            state_of (update_models self download_file st)) as Henough.
  { intros Hok. destruct (Henough Hok) as [? ?]. auto. }
  clear Hmerges.
  destruct (fetch_remote_model_list_run self) as (v & evs & Hfetch & Hcat).
  pose proof (fetches_catalog _ Hcat) as Hevs.
  destruct (not_list v) eqn:Hv.
  { rewrite !(update_models_not_list self download_file v evs) by done.
    simpl. intros _. by rewrite fetches_app, Hevs. }
  destruct v as [l|]; [| done].
  assert (l ≠ []) as Hl by (by intros ->).
  rewrite (update_models_steps self download_file l evs st) by done.
  destruct (is_update_required_run l st) as (o & evs1 & Hrun & Ho).
  rewrite Hrun. run_simpl.
  destruct o as [[|]|e].
  - destruct Ho as (Hnamed & _ & missing & ->).
    set (rd := download_new_models download_file l st).
    destruct (outcome_of rd) as [[]|e] eqn:Hd.
    + destruct (update_configs_run l (state_of rd) Hnamed)
        as (Hc & Hevc & Hfc & _).
      set (rc := update_configs l (state_of rd)) in *.
      rewrite Hc, Hevc. run_simpl. intros Hok.
      rewrite (update_models_no_update self download_file l evs (state_of rc));
        [| done | done | done |].
      * simpl. by rewrite fetches_app, Hevs.
      * rewrite Hfc. apply download_new_models_all_present; [done |].
        intros url f size Hin. apply Hok.
        apply elem_of_app. right. apply elem_of_app. right.
        apply elem_of_app. by left.
    + run_simpl. intros Hok.
      rewrite (update_models_steps self download_file l evs (state_of rd))
        by done.
      destruct (is_update_required_run l (state_of rd))
        as (o2 & evs2 & Hrun2 & Ho2).
      rewrite Hrun2. run_simpl.
      destruct (download_new_models_again download_file l st (state_of rd))
        as (Ho' & Hst' & Hf'); [| done |].
      { intros url f size Hin. apply Hok.
        apply elem_of_app. right. apply elem_of_app. by right. }
      fold rd in Ho'. rewrite Hd in Ho'.
      destruct o2 as [[|]|e2].
      * destruct Ho2 as (_ & _ & missing2 & ->).
        rewrite Ho'. run_simpl. split; [| done].
        by rewrite !fetches_app, Hevs, Hf'.
      * destruct Ho2 as (_ & _ & ->). simpl.
        by rewrite !fetches_app, Hevs.
      * destruct Ho2 as (_ & ->). simpl.
        by rewrite !fetches_app, Hevs.
  - destruct Ho as (_ & _ & ->). run_simpl. intros _.
    rewrite (update_models_steps self download_file l evs st) by done.
    rewrite Hrun. simpl. by rewrite fetches_app, Hevs.
  - destruct Ho as (_ & ->). run_simpl. intros _.
    rewrite (update_models_steps self download_file l evs st) by done.
    rewrite Hrun. simpl. by rewrite fetches_app, Hevs.
Qed.

(** C8 (amended): [update_single_model id], once the catalog is fetched.
    When the records all have names and none is named [id], it returns
    having changed neither the directory nor the configuration store, and,
    if the catalog is not empty, what it prints is that the model was not
    found.  When [mi] is the first record named [id], the records before it
    have names, [mi] has its URL and size, and the transfer for [mi] does
    not raise, it checks for the file and transfers it only when absent,
    then adds [mi] to its partition unless the name is already there, and
    touches nothing else; it never lists the directory.  Records after the
    first match play no part. *)
Theorem update_single_model_first_match id l evs st :
  fetch_remote_model_list self st = Result (Ret (Some l)) st evs →
  (Forall (λ mi, ∃ n, name mi = Some n ∧ n ≠ id) l →
   outcome_of (update_single_model self download_file id st) = Ret tt ∧
   state_of (update_single_model self download_file id st) = st ∧
   (l ≠ [] →
    events_of (update_single_model self download_file id st) =
      evs ++ [Stdout (NotFoundInRemoteList id)])) ∧
  (∀ l1 mi l2 url size,
     l = l1 ++ mi :: l2 →
     Forall (λ mi, ∃ n, name mi = Some n ∧ n ≠ id) l1 →
     name mi = Some id → file_url mi = Some url → size_mb mi = Some size →
     let f := id +:+ safetensors in
     let total := (size * 1024 * 1024)%Z in
     let dr := download_file url f total in
     raises dr = false →
     let r := update_single_model self download_file id st in
     outcome_of r = Ret tt ∧
     events_of r =
       evs ++ PathExists f ::
         (if decide (f ∈ local_files st) then []
          else [Stdout (DownloadingNewModel id); DownloadFile url f total]) ++
         [Stdout (UpdateCompletedFor id)] ∧
     local_files (state_of r) =
       (if decide (f ∈ local_files st) then local_files st
        else if writes_file dr then {[f]} ∪ local_files st
        else local_files st) ∧
     partition_of mi (state_of r) =
       (if decide (id ∈ dom (partition_of mi st)) then partition_of mi st
        else <[id := mi]> (partition_of mi st)) ∧
     other_partition_of mi (state_of r) = other_partition_of mi st).
Proof.
  intros Hfetch. split.
  - intros Hnone. destruct (decide (l = [])) as [-> | Hl].
    + by rewrite (update_single_model_not_list self download_file _ _ id st
                    Hfetch).
    + unfold update_single_model, bind, print, emit.
      rewrite Hfetch; run_simpl.
      rewrite not_list_cons by done. by rewrite next_model_none.
  - intros l1 mi l2 url size -> Hl1 Hn Hurl Hsize f total dr Hdr.
    unfold update_single_model, bind, print, emit. rewrite Hfetch; run_simpl.
    rewrite not_list_cons by (by destruct l1).
    rewrite next_model_first by done.
    run_simpl.
    assert (∃ st1 evs1,
      download_single_model download_file mi st = Result (Ret tt) st1 evs1 ∧
      evs1 = PathExists f ::
        (if decide (f ∈ local_files st) then []
         else [Stdout (DownloadingNewModel id); DownloadFile url f total]) ∧
      local_files st1 =
        (if decide (f ∈ local_files st) then local_files st
         else if writes_file dr then {[f]} ∪ local_files st
         else local_files st) ∧
      model_configs st1 = model_configs st ∧
      vae_configs st1 = vae_configs st) as (st1 & evs1 & Hdl & -> & Hf1 & Hm1 & Hv1).
    { case_decide as Hin.
      - exists st. eexists. split; [| done].
        apply download_single_model_present; [| done..].
        unfold complete. rewrite Hn, Hurl, Hsize. by repeat split.
      - rewrite (download_single_model_absent download_file mi id url size st)
          by done.
        fold f total dr. rewrite Hdr. do 2 eexists. split; [done |].
        split; [done |]. by destruct (writes_file dr). }
    rewrite Hdl. run_simpl.
    destruct (update_config_single_model_run mi id st1 Hn)
      as (Ho & Hev & Hfiles & Hpart & Hother).
    rewrite Ho, Hev. unfold getitem. rewrite Hn. simpl.
    split; [done |].
    split; [done |].
    split; [congruence |].
    assert (∀ k, configs_of k st1 = configs_of k st) as Hcfg.
    { intros []; simpl; congruence. }
    unfold partition_of, other_partition_of in *.
    rewrite Hpart, Hother, !Hcfg. done.
Qed.

(** C9: an empty catalog is handled as a fetch failure.  When both sources
    answer with an empty JSON array, [update_models] and
    [update_single_model] make the two requests, print "Could not fetch
    remote model list" and return with the state unchanged: no listing of
    the directory, no existence check, no transfer, no merge, and no
    "not found" line from [update_single_model]. *)
Theorem empty_catalog_is_a_fetch_failure id st :
  session_get self (model_config_url self) = Payload (JsonList []) →
  session_get self (vae_config_url self) = Payload (JsonList []) →
  let evs :=
    [SessionGet (model_config_url self); SessionGet (vae_config_url self);
     Stdout CouldNotFetch] in
  update_models self download_file st = Result (Ret tt) st evs ∧
  update_single_model self download_file id st = Result (Ret tt) st evs.
Proof.
  intros H1 H2.
  pose proof (fetch_remote_model_list_payloads self _ _ st H1 H2) as Hfetch.
  simpl in Hfetch. split.
  - by rewrite (update_models_not_list self download_file _ _ st Hfetch).
  - by rewrite (update_single_model_not_list self download_file _ _ id st
                  Hfetch).
Qed.

(** C10 (amended): when some listed name has no file, every record of the
    combined list is complete and no transfer raises, the pass works on the
    whole list, not on the missing names only.  [update_models] returns
    normally and, for every record of the list, checks for its file,
    transfers it unless it is there, and leaves its name in its partition
    of the configuration store: what the partition holds under that name is
    the entry it held before or a record of the list with that name and
    kind.  This includes the records whose files were in the directory
    before the pass. *)
Theorem update_models_processes_every_record l evs st :
  fetch_remote_model_list self st = Result (Ret (Some l)) st evs →
  Forall complete l →
  (∀ mi dr, mi ∈ l → transfer_of download_file mi = Some dr →
            raises dr = false) →
  (∃ n, listed l n ∧ n +:+ safetensors ∉ local_files st) →
  let r := update_models self download_file st in
  outcome_of r = Ret tt ∧
  ∀ mi n, mi ∈ l → name mi = Some n →
    let f := n +:+ safetensors in
    PathExists f ∈ events_of r ∧
    (f ∈ local_files st ∨ ∃ url size, DownloadFile url f size ∈ events_of r) ∧
    ∃ x, partition_of mi (state_of r) !! n = Some x ∧
         (partition_of mi st !! n = Some x ∨
          x ∈ l ∧ name x = Some n ∧ is_vae x = is_vae mi).
Proof.
  intros Hfetch Hcomplete Hraise Hmissing.
  destruct (update_models_every_record l evs st Hfetch Hcomplete Hraise
              Hmissing) as [Ho Hall].
  split; [done |].
  intros mi n Hin Hn f.
  destruct (Hall mi n Hin Hn) as (Hpe & Hatt & _ & [x Hx]%elem_of_dom & Hent).
  split; [done |]. split; [done |].
  exists x. split; [done |]. by apply Hent.
Qed.
End claims.

(** * The properties on concrete catalogs *)

(** Membership in the events of a concrete run. *)
Ltac no_such_event :=
  let H := fresh in
  intros H; apply list_elem_of_In in H; vm_compute in H;
  repeat (destruct H as [H | H]; [discriminate H |]); exact H.

(** The models source cannot be reached; [v1] is on disk and configured. *)
Lemma fetch_failure_aborts_pass_witness :
  (session_get unreachable_catalog (model_config_url unreachable_catalog) =
     RequestException ∨
   session_get unreachable_catalog (vae_config_url unreachable_catalog) =
     RequestException) ∧
  outcome_of (update_models unreachable_catalog always_ok v1_configured) =
    Ret tt ∧
  state_of (update_models unreachable_catalog always_ok v1_configured) =
    v1_configured ∧
  ∃ url evs,
    events_of (update_models unreachable_catalog always_ok v1_configured) =
      evs ++ [LogError (FailedToFetch url); Stdout CouldNotFetch] ∧
    Forall (λ e, is_catalog_event e = true) evs.
Proof.
  split; [left; reflexivity |].
  apply (fetch_failure_aborts_pass unreachable_catalog always_ok v1_configured).
  left; reflexivity.
Defined.

(** C2, as stated, fails: in the catalog [a; b; c] with an empty directory,
    let the transfer of [b] raise.  The pass ends with that exception after
    fetching [a]: [c] is neither checked nor fetched, and neither [a] nor
    [c] reaches the configuration store. *)
Lemma raised_fetch_failure_aborts_pass :
  fetch_remote_model_list abc_catalog empty_state =
    Result (Ret (Some [art_a; art_b; art_c])) empty_state
      [SessionGet models_url; SessionGet vaes_url] ∧
  transfer_of (except_for "b.safetensors" raises_without_file) art_b =
    Some raises_without_file ∧
  outcome_of
    (update_models abc_catalog (except_for "b.safetensors" raises_without_file)
       empty_state) = Raise DownloadError ∧
  (PathExists "c.safetensors" ∉
     events_of
       (update_models abc_catalog
          (except_for "b.safetensors" raises_without_file) empty_state)) ∧
  (∀ url size,
     DownloadFile url "c.safetensors" size ∉
       events_of
         (update_models abc_catalog
            (except_for "b.safetensors" raises_without_file) empty_state)) ∧
  state_of
    (update_models abc_catalog (except_for "b.safetensors" raises_without_file)
       empty_state) =
    {| local_files := {["a.safetensors"]};
       model_configs := ∅; vae_configs := ∅ |}.
Proof.
  split; [reflexivity |]. split; [reflexivity |]. split; [reflexivity |].
  split; [no_such_event |].
  split; [intros url size; no_such_event |].
  vm_compute. reflexivity.
Qed.

(** The same catalog, the transfer of [b] returning without its file. *)
Lemma returned_fetch_failure_does_not_abort_witness :
  transfer_of (except_for "b.safetensors" returns_without_file) art_b =
    Some returns_without_file ∧
  outcome_of
    (update_models abc_catalog (except_for "b.safetensors" returns_without_file)
       empty_state) = Ret tt ∧
  ∀ X n, X = art_a ∨ X = art_c → name X = Some n →
    (n +:+ safetensors ∈ local_files empty_state ∨
     ∃ url size,
       DownloadFile url (n +:+ safetensors) size ∈
         events_of
           (update_models abc_catalog
              (except_for "b.safetensors" returns_without_file) empty_state)) ∧
    (transfer_of (except_for "b.safetensors" returns_without_file) X =
       Some download_ok →
     n +:+ safetensors ∈
       local_files
         (state_of
            (update_models abc_catalog
               (except_for "b.safetensors" returns_without_file)
               empty_state))) ∧
    n ∈ dom
          (partition_of X
             (state_of
                (update_models abc_catalog
                   (except_for "b.safetensors" returns_without_file)
                   empty_state))).
Proof.
  split; [reflexivity |].
  apply (returned_fetch_failure_does_not_abort abc_catalog
           (except_for "b.safetensors" returns_without_file)
           art_a art_b art_c "b" returns_without_file
           [SessionGet models_url; SessionGet vaes_url] empty_state).
  - reflexivity.
  - repeat split; eexists; reflexivity.
  - repeat split; eexists; reflexivity.
  - repeat split; eexists; reflexivity.
  - reflexivity.
  - apply not_elem_of_empty.
  - reflexivity.
  - reflexivity.
  - reflexivity.
  - intros dr [= <-]. reflexivity.
  - intros dr [= <-]. reflexivity.
Defined.

(** C3, as stated, fails: with [v1.safetensors] in the directory and [v1]
    the only record of the catalog, the pass fetches nothing and merges
    nothing; [v1] is not in the VAE partition afterwards. *)
Lemma present_vae_is_not_merged :
  fetch_remote_model_list v1_catalog v1_on_disk =
    Result (Ret (Some [v1])) v1_on_disk
      [SessionGet models_url; SessionGet vaes_url] ∧
  fetches (events_of (update_models v1_catalog always_ok v1_on_disk)) = 0 ∧
  (merges v1_on_disk
     (state_of (update_models v1_catalog always_ok v1_on_disk)) ≠ 1) ∧
  (vae_configs (state_of (update_models v1_catalog always_ok v1_on_disk))
     !! "v1" = None).
Proof.
  split; [reflexivity |]. split; [reflexivity |].
  split; [vm_compute; discriminate | reflexivity].
Qed.

(** The same scenario, read as what the pass does. *)
Lemma present_vae_is_neither_fetched_nor_merged_witness :
  "v1.safetensors" ∈ local_files v1_on_disk ∧
  update_models v1_catalog always_ok v1_on_disk =
    Result (Ret tt) v1_on_disk
      ([SessionGet models_url; SessionGet vaes_url] ++
       [ListDir; Stdout NoUpdatesRequired]) ∧
  fetches (events_of (update_models v1_catalog always_ok v1_on_disk)) = 0 ∧
  merges v1_on_disk (state_of (update_models v1_catalog always_ok v1_on_disk))
    = 0 ∧
  vae_configs (state_of (update_models v1_catalog always_ok v1_on_disk)) =
    vae_configs v1_on_disk.
Proof.
  assert ("v1.safetensors" ∈ local_files v1_on_disk) as Hfile
    by (vm_compute; reflexivity).
  split; [exact Hfile |].
  apply (present_vae_is_neither_fetched_nor_merged v1_catalog always_ok v1
           [SessionGet models_url; SessionGet vaes_url] v1_on_disk);
    [reflexivity | reflexivity | reflexivity | exact Hfile].
Defined.



(** [v1] is configured from an older catalog; the catalog now gives it
    another URL and size. *)
Lemma stored_entry_is_never_replaced_witness :
  holds_entry true "v1" old_v1 v1_configured ∧
  holds_entry true "v1" old_v1
    (state_of (update_models m1_v1_catalog always_ok v1_configured)) ∧
  holds_entry true "v1" old_v1
    (state_of (update_single_model m1_v1_catalog always_ok "v1" v1_configured)) ∧
  holds_entry true "v1" old_v1
    (state_of (update_config_single_model v1 v1_configured)).
Proof.
  assert (holds_entry true "v1" old_v1 v1_configured) as Hd by reflexivity.
  destruct (stored_entry_is_never_replaced m1_v1_catalog always_ok
              true "v1" old_v1 v1_configured Hd)
    as (Hmodels & Hsingle & Hconfig & _).
  split; [exact Hd |]. split; [exact Hmodels |].
  split; [apply Hsingle | apply Hconfig].
Defined.

(** [v1.safetensors] is on disk while the catalog lists [m1] and [v1]. *)
Lemma existing_file_is_never_fetched_witness :
  "v1" +:+ safetensors ∈ local_files v1_on_disk ∧
  (∀ url size,
     DownloadFile url ("v1" +:+ safetensors) size ∉
       events_of (update_models m1_v1_catalog always_ok v1_on_disk)) ∧
  "v1" +:+ safetensors ∈
    local_files (state_of (update_models m1_v1_catalog always_ok v1_on_disk)) ∧
  ∀ id,
    (∀ url size,
       DownloadFile url ("v1" +:+ safetensors) size ∉
         events_of
           (update_single_model m1_v1_catalog always_ok id v1_on_disk)) ∧
    "v1" +:+ safetensors ∈
      local_files
        (state_of (update_single_model m1_v1_catalog always_ok id v1_on_disk)).
Proof.
  assert ("v1" +:+ safetensors ∈ local_files v1_on_disk) as Hfile
    by (vm_compute; reflexivity).
  split; [exact Hfile |].
  exact (existing_file_is_never_fetched m1_v1_catalog always_ok "v1"
           v1_on_disk Hfile).
Defined.

(** Two passes from an empty directory: the first fetches [m1] and [v1],
    the second nothing. *)
Lemma second_pass_fetches_and_merges_nothing_witness :
  fetches (events_of (update_models m1_v1_catalog always_ok empty_state)) = 2 ∧
  fetches
    (events_of
       (update_models m1_v1_catalog always_ok
          (state_of (update_models m1_v1_catalog always_ok empty_state)))) =
    0 ∧
  merges (state_of (update_models m1_v1_catalog always_ok empty_state))
    (state_of
       (update_models m1_v1_catalog always_ok
          (state_of (update_models m1_v1_catalog always_ok empty_state)))) =
    0 ∧
  state_of
    (update_models m1_v1_catalog always_ok
       (state_of (update_models m1_v1_catalog always_ok empty_state))) =
    state_of (update_models m1_v1_catalog always_ok empty_state).
Proof.
  split; [reflexivity |].
  apply (second_pass_fetches_and_merges_nothing m1_v1_catalog always_ok
           empty_state).
  intros url f size _. reflexivity.
Defined.

(** C8, as stated, fails in two places.  With an empty catalog no record
    is named [ghost], yet what is printed is that the list could not be
    fetched, not that the model was not found.  And with the catalog
    [a; b; c], an empty directory and the transfer of [b] raising,
    [update_single_model] finds [b], calls [download_file] for it and ends
    with the exception: [b] is not merged and no completion is printed. *)
Lemma update_single_model_misses_report_and_merge :
  update_single_model empty_catalog always_ok "ghost" empty_state =
    Result (Ret tt) empty_state
      [SessionGet models_url; SessionGet vaes_url; Stdout CouldNotFetch] ∧
  transfer_of (except_for "b.safetensors" raises_without_file) art_b =
    Some raises_without_file ∧
  update_single_model abc_catalog
    (except_for "b.safetensors" raises_without_file) "b" empty_state =
    Result (Raise DownloadError) empty_state
      [SessionGet models_url; SessionGet vaes_url;
       PathExists "b.safetensors"; Stdout (DownloadingNewModel "b");
       DownloadFile "http://x/b" "b.safetensors" 10485760] ∧
  (model_configs
     (state_of
        (update_single_model abc_catalog
           (except_for "b.safetensors" raises_without_file) "b" empty_state))
     !! "b" = None).
Proof.
  split; [reflexivity |]. split; [reflexivity |].
  split; [vm_compute; reflexivity | reflexivity].
Qed.

(** A name the catalog does not list, and one it lists. *)
Lemma update_single_model_first_match_witness :
  update_single_model m1_v1_catalog always_ok "ghost" v1_on_disk =
    Result (Ret tt) v1_on_disk
      ([SessionGet models_url; SessionGet vaes_url] ++
       [Stdout (NotFoundInRemoteList "ghost")]) ∧
  outcome_of (update_single_model m1_v1_catalog always_ok "v1" v1_on_disk) =
    Ret tt ∧
  events_of (update_single_model m1_v1_catalog always_ok "v1" v1_on_disk) =
    [SessionGet models_url; SessionGet vaes_url] ++
    PathExists "v1.safetensors" ::
      (if decide ("v1.safetensors" ∈ local_files v1_on_disk) then []
       else [Stdout (DownloadingNewModel "v1");
             DownloadFile "http://x/v1" "v1.safetensors" (5 * 1024 * 1024)]) ++
      [Stdout (UpdateCompletedFor "v1")] ∧
  partition_of v1
    (state_of (update_single_model m1_v1_catalog always_ok "v1" v1_on_disk)) =
    (if decide ("v1" ∈ dom (partition_of v1 v1_on_disk))
     then partition_of v1 v1_on_disk
     else <["v1" := v1]> (partition_of v1 v1_on_disk)).
Proof.
  assert (fetch_remote_model_list m1_v1_catalog v1_on_disk =
            Result (Ret (Some [m1; v1])) v1_on_disk
              [SessionGet models_url; SessionGet vaes_url]) as Hfetch
    by reflexivity.
  split.
  - destruct (update_single_model_first_match m1_v1_catalog always_ok "ghost"
                [m1; v1] _ v1_on_disk Hfetch) as [Hnone _].
    destruct Hnone as (Ho & Hst & Hev).
    { repeat (apply Forall_cons_2;
              [eexists; split; [reflexivity | discriminate] |]).
      apply Forall_nil_2. }
    destruct (update_single_model m1_v1_catalog always_ok "ghost" v1_on_disk)
      as [o s e].
    simpl in Ho, Hst, Hev. rewrite Ho, Hst, Hev; [reflexivity | discriminate].
  - destruct (update_single_model_first_match m1_v1_catalog always_ok "v1"
                [m1; v1] _ v1_on_disk Hfetch) as [_ Hfound].
    destruct (Hfound [m1] v1 [] "http://x/v1" 5%Z) as (Ho & Hev & _ & Hpart & _);
      try reflexivity.
    + apply Forall_cons_2; [| apply Forall_nil_2].
      eexists; split; [reflexivity | discriminate].
    + split; [exact Ho |]. split; [exact Hev | exact Hpart].
Defined.

(** Both sources answer with an empty list. *)
Lemma empty_catalog_is_a_fetch_failure_witness :
  session_get empty_catalog (model_config_url empty_catalog) =
    Payload (JsonList []) ∧
  session_get empty_catalog (vae_config_url empty_catalog) =
    Payload (JsonList []) ∧
  update_models empty_catalog always_ok empty_state =
    Result (Ret tt) empty_state
      [SessionGet models_url; SessionGet vaes_url; Stdout CouldNotFetch] ∧
  update_single_model empty_catalog always_ok "ghost" empty_state =
    Result (Ret tt) empty_state
      [SessionGet models_url; SessionGet vaes_url; Stdout CouldNotFetch].
Proof.
  split; [reflexivity |]. split; [reflexivity |].
  apply (empty_catalog_is_a_fetch_failure empty_catalog always_ok "ghost"
           empty_state); reflexivity.
Defined.

(** C10, as stated, fails: in the catalog [a; b; c] with [c.safetensors]
    in the directory, the names [a] and [b] are missing, and the transfer
    of [b] raises.  The pass ends with that exception after fetching [a]:
    the record [c], whose file is present, is never checked, and no record
    is merged. *)
Lemma raising_transfer_leaves_records_unprocessed :
  fetch_remote_model_list abc_catalog c_on_disk =
    Result (Ret (Some [art_a; art_b; art_c])) c_on_disk
      [SessionGet models_url; SessionGet vaes_url] ∧
  "c.safetensors" ∈ local_files c_on_disk ∧
  (listed [art_a; art_b; art_c] "a" ∧
   "a" +:+ safetensors ∉ local_files c_on_disk) ∧
  outcome_of
    (update_models abc_catalog (except_for "b.safetensors" raises_without_file)
       c_on_disk) = Raise DownloadError ∧
  (PathExists "c.safetensors" ∉
     events_of
       (update_models abc_catalog
          (except_for "b.safetensors" raises_without_file) c_on_disk)) ∧
  state_of
    (update_models abc_catalog (except_for "b.safetensors" raises_without_file)
       c_on_disk) =
    {| local_files := {["a.safetensors"; "c.safetensors"]};
       model_configs := ∅; vae_configs := ∅ |}.
Proof.
  split; [reflexivity |]. split; [vm_compute; reflexivity |].
  split.
  { split; [exists art_a; split; [left | reflexivity] |].
    intros Hin. vm_compute in Hin. discriminate Hin. }
  split; [reflexivity |]. split; [no_such_event |].
  vm_compute. reflexivity.
Qed.

(** [m1] is missing, [v1] is on disk and not configured: [v1] is checked
    and merged all the same. *)
Lemma update_models_processes_every_record_witness :
  "v1.safetensors" ∈ local_files v1_on_disk ∧
  outcome_of (update_models m1_v1_catalog always_ok v1_on_disk) = Ret tt ∧
  PathExists "v1.safetensors" ∈
    events_of (update_models m1_v1_catalog always_ok v1_on_disk) ∧
  ∃ x,
    partition_of v1
      (state_of (update_models m1_v1_catalog always_ok v1_on_disk)) !! "v1" =
      Some x ∧
    (partition_of v1 v1_on_disk !! "v1" = Some x ∨
     x ∈ [m1; v1] ∧ name x = Some "v1" ∧ is_vae x = is_vae v1).
Proof.
  split; [vm_compute; reflexivity |].
  destruct (update_models_processes_every_record m1_v1_catalog always_ok
              [m1; v1] [SessionGet models_url; SessionGet vaes_url] v1_on_disk)
    as [Ho Hall].
  - reflexivity.
  - repeat (apply Forall_cons_2; [repeat split; eexists; reflexivity |]).
    apply Forall_nil_2.
  - intros mi dr _. unfold transfer_of.
    destruct (name mi), (file_url mi), (size_mb mi); try discriminate.
    intros [= <-]. reflexivity.
  - exists "m1". split.
    + exists m1. split; [left | reflexivity].
    + intros Hin. vm_compute in Hin. discriminate Hin.
  - split; [exact Ho |].
    destruct (Hall v1 "v1") as (Hpe & _ & Hx); [by right; left | reflexivity |].
    split; [exact Hpe | exact Hx].
Defined.

(** * Further properties of the methods *)

Lemma remote_names_unnamed l :
  ¬ Forall named l →
  ∀ st, remote_names l st = Result (Raise (KeyError "name")) st [].
Proof.
  induction l as [|mi l IH]; intros Hbad st.
  - destruct Hbad. constructor.
  - simpl. unfold bind, getitem.
    destruct (name mi) as [n|] eqn:Hn; simpl; [| done].
    rewrite IH; [done |].
    intros Hall. apply Hbad. constructor; [by exists n | done].
Qed.

Lemma incomplete_record_is_not_downloaded_aux
    (download_file : string → string → Z → download_result) mi st :
  ¬ complete mi →
  download_single_model download_file mi st =
    Result (Raise (KeyError (first_missing_key mi))) st [].
Proof.
  intros Hmi. unfold download_single_model, bind, getitem, first_missing_key.
  destruct (name mi) as [n|] eqn:Hn; simpl; [| done].
  destruct (file_url mi) as [url|] eqn:Hurl; simpl; [| done].
  destruct (size_mb mi) as [size|] eqn:Hsize; simpl; [| done].
  destruct Hmi. unfold complete. rewrite Hn, Hurl, Hsize. by repeat split.
Qed.

Section methods.
Context (self : ModelUpdater).
Context (download_file : string → string → Z → download_result).


(** X2: [is_update_required] changes nothing.  On records that all have a
    name it lists the directory and answers whether some listed name lacks
    its [.safetensors] file; when it answers yes it prints exactly the
    listed names that lack their file.  If some record has no name it
    raises [KeyError('name')] after listing the directory. *)
Theorem is_update_required_answer l st :
  state_of (is_update_required l st) = st ∧
  (Forall named l →
   ∃ b missing,
     outcome_of (is_update_required l st) = Ret b ∧
     (b = true ↔ ∃ n, listed l n ∧ n +:+ safetensors ∉ local_files st) ∧
     (∀ n, n ∈ missing ↔ listed l n ∧ n +:+ safetensors ∉ local_files st) ∧
     events_of (is_update_required l st) =
       ListDir :: (if b then [Stdout (MissingModels missing)] else [])) ∧
  (¬ Forall named l →
   outcome_of (is_update_required l st) = Raise (KeyError "name") ∧
   events_of (is_update_required l st) = [ListDir]).
Proof.
  split; [| split].
  - by destruct (is_update_required_run l st) as (o & evs & -> & _).
  - intros Hnamed.
    destruct (remote_names_run l) as (o & Hrun & Ho).
    destruct o as [names|e]; [| by destruct Ho].
    destruct Ho as [_ Hnames].
    set (missing := names ∖ local_names (elements (local_files st))).
    assert (∀ n, n ∈ missing ↔
                 listed l n ∧ n +:+ safetensors ∉ local_files st) as Hmissing.
    { intros n. unfold missing.
      by rewrite elem_of_difference, Hnames, elem_of_local_names. }
    unfold is_update_required, bind, os_listdir, print, emit; simpl.
    rewrite Hrun; simpl. fold missing.
    case_decide as Hempty; simpl.
    + exists false, missing. split; [done |]. split; [| done].
      split; [done |]. intros (n & Hn). apply Hmissing in Hn.
      rewrite Hempty in Hn. by apply not_elem_of_empty in Hn.
    + exists true, missing. split; [done |]. split; [| done].
      split; [| done]. intros _.
      apply set_choose_L in Hempty as [n Hn]. exists n. by apply Hmissing.
  - intros Hbad.
    unfold is_update_required, bind, os_listdir, print, emit; simpl.
    by rewrite remote_names_unnamed.
Qed.

(** X3: the file name the download gives an artifact and the name the
    inventory scan reads back agree: a name is in the local inventory
    exactly when the directory has the entry [name.safetensors].  Dots in
    the name do no harm, and an entry with another extension, or with
    something after [.safetensors], stands for no name. *)
Theorem inventory_reads_back_file_names (files : gset string) n :
  n ∈ local_names (elements files) ↔ n +:+ safetensors ∈ files.
Proof. apply elem_of_local_names. Qed.

(** X4: a record that lacks one of the keys ['name'], ['file_url'],
    ['size_mb'] is not downloaded: [download_single_model] raises
    [KeyError] for the first of them that is absent, before it looks for
    the file, and changes nothing. *)
Theorem incomplete_record_is_not_downloaded mi st :
  ¬ complete mi →
  download_single_model download_file mi st =
    Result (Raise (KeyError (first_missing_key mi))) st [].
Proof. apply incomplete_record_is_not_downloaded_aux. Qed.

(** X5: a record without a name stops [update_models] before anything is
    fetched or merged.  The pass lists the directory, raises
    [KeyError('name')] and leaves the state as it was, whatever files are
    missing. *)
Theorem nameless_record_aborts_pass l evs st :
  fetch_remote_model_list self st = Result (Ret (Some l)) st evs →
  ¬ Forall named l →
  update_models self download_file st =
    Result (Raise (KeyError "name")) st (evs ++ [ListDir]).
Proof.
  intros Hfetch Hbad.
  assert (l ≠ []) as Hl by (intros ->; apply Hbad; constructor).
  rewrite (update_models_steps self download_file l evs st Hfetch Hl).
  unfold is_update_required, bind, os_listdir, print, emit; simpl.
  by rewrite remote_names_unnamed.
Qed.

(** X6: [update_single_model] reads the names of the records in order and
    stops at the first match.  A record without a name that comes before
    any match makes it raise [KeyError('name')] with nothing fetched,
    merged or printed, whatever follows in the catalog. *)
Theorem nameless_record_before_match id l1 bad l2 evs st :
  fetch_remote_model_list self st =
    Result (Ret (Some (l1 ++ bad :: l2))) st evs →
  Forall (λ mi, ∃ n, name mi = Some n ∧ n ≠ id) l1 →
  name bad = None →
  update_single_model self download_file id st =
    Result (Raise (KeyError "name")) st evs.
Proof.
  intros Hfetch Hl1 Hbad.
  unfold update_single_model, bind, print, emit. rewrite Hfetch; run_simpl.
  rewrite not_list_cons by (by destruct l1).
  clear Hfetch.
  assert (next_model id (l1 ++ bad :: l2) st =
          Result (Raise (KeyError "name")) st []) as ->.
  { induction Hl1 as [|mi l (n & Hn & Hne) _ IH]; simpl.
    - unfold bind, getitem. by rewrite Hbad.
    - unfold bind, getitem. rewrite Hn; simpl.
      rewrite (proj2 (String.eqb_neq n id)) by done. by rewrite IH. }
  run_simpl. by rewrite app_nil_r.
Qed.
End methods.

(** ** More invariants of runs *)

Lemma preserves_for_each_elem (P : state → list event → state → Prop)
    `{!Composable P} {A} (body : A → M unit) xs :
  (∀ x, x ∈ xs → preserves P (body x)) → preserves P (for_each body xs).
Proof.
  induction xs as [|x xs IH]; intros Hbody; simpl.
  - apply (preserves_ret _).
  - apply (preserves_bind _).
    + apply Hbody. left.
    + intros _. apply IH. intros y Hy. apply Hbody. by right.
Qed.

(** A step of a program whose first part is known at the state at hand. *)
Lemma bind_holds_at (P : state → list event → state → Prop) `{!Composable P}
    {A B} (m : M A) (k : A → M B) st :
  P st (events_of (m st)) (state_of (m st)) →
  (∀ a, outcome_of (m st) = Ret a → preserves P (k a)) →
  P st (events_of (bind m k st)) (state_of (bind m k st)).
Proof.
  intros Hm Hk. unfold bind.
  destruct (outcome_of (m st)) as [a|e] eqn:Ho; simpl; [| done].
  eapply composable_app; [exact Hm | by apply Hk].
Qed.

Lemma elem_of_destinations evs f :
  f ∈ destinations evs ↔ ∃ url size, DownloadFile url f size ∈ evs.
Proof.
  induction evs as [|e evs IH]; simpl.
  - split.
    + intros H. by apply elem_of_nil in H.
    + intros (url & size & H). by apply elem_of_nil in H.
  - assert ((∃ url size, DownloadFile url f size ∈ e :: evs) ↔
            (∃ url size, DownloadFile url f size = e) ∨ f ∈ destinations evs)
      as ->.
    { rewrite IH. split.
      - intros (url & size & [? | ?]%elem_of_cons); [left | right];
          by exists url, size.
      - intros [(url & size & <-) | (url & size & ?)];
          exists url, size; [left | by right]. }
    destruct e as [| | | | |url' f' size'|];
      try (split; [by right | by intros [(? & ? & ?) | ?]]).
    rewrite elem_of_cons. split.
    + intros [-> | ?]; [left | by right]. by exists url', size'.
    + intros [(url & size & [= _ -> _]) | ?]; [by left | by right].
Qed.

Lemma destinations_app e1 e2 :
  destinations (e1 ++ e2) = destinations e1 ++ destinations e2.
Proof.
  induction e1 as [|e e1 IH]; [done |].
  destruct e; simpl; by rewrite ?IH.
Qed.

Lemma destinations_no_download evs :
  Forall (λ e, is_download e = false) evs → destinations evs = [].
Proof. induction 1 as [|e evs He _ IH]; [done |]. by destruct e. Qed.

Lemma catalog_event_no_download evs :
  Forall (λ e, is_catalog_event e = true) evs →
  Forall (λ e, is_download e = false) evs.
Proof. intros H. eapply Forall_impl; [exact H |]. by intros []. Qed.

(** *** The store is not touched *)

#[export] Instance configs_same_composable : Composable configs_same.
Proof.
  split.
  - intros st. by split.
  - intros s1 e1 s2 e2 s3 [Hm1 Hv1] [Hm2 Hv2]. split; congruence.
Qed.

#[export] Instance files_from_transfers_composable :
  Composable files_from_transfers.
Proof.
  split.
  - intros st. split; [done |]. intros g ?. by left.
  - intros s1 e1 s2 e2 s3 [Hs1 Hn1] [Hs2 Hn2]. split; [by etrans |].
    intros g Hg. rewrite destinations_app, elem_of_app.
    destruct (Hn2 g Hg) as [Hg2 | ?]; [| by right; right].
    destruct (Hn1 g Hg2) as [? | ?]; [by left | by right; left].
Qed.

#[export] Instance keeps_well_keyed_composable : Composable keeps_well_keyed.
Proof.
  split.
  - intros st Hwk. exact Hwk.
  - intros s1 e1 s2 e2 s3 H1 H2 Hwk. by apply H2, H1.
Qed.

(** A step that leaves the state alone. *)
Ltac state_unchanged :=
  intros ?; first
    [ by split
    | split; [done |]; intros ? ?; by left
    | let H := fresh in intros H; exact H ].

Lemma emit_configs_same e : preserves configs_same (emit e).
Proof. state_unchanged. Qed.
Lemma os_listdir_configs_same : preserves configs_same os_listdir.
Proof. state_unchanged. Qed.
Lemma os_path_exists_configs_same f : preserves configs_same (os_path_exists f).
Proof. state_unchanged. Qed.
Lemma create_file_configs_same f : preserves configs_same (create_file f).
Proof. state_unchanged. Qed.

Lemma emit_files_from_transfers e : preserves files_from_transfers (emit e).
Proof. state_unchanged. Qed.
Lemma os_listdir_files_from_transfers :
  preserves files_from_transfers os_listdir.
Proof. state_unchanged. Qed.
Lemma os_path_exists_files_from_transfers f :
  preserves files_from_transfers (os_path_exists f).
Proof. state_unchanged. Qed.

Lemma emit_keeps_well_keyed e : preserves keeps_well_keyed (emit e).
Proof. state_unchanged. Qed.
Lemma os_listdir_keeps_well_keyed : preserves keeps_well_keyed os_listdir.
Proof. state_unchanged. Qed.
Lemma os_path_exists_keeps_well_keyed f :
  preserves keeps_well_keyed (os_path_exists f).
Proof. state_unchanged. Qed.
Lemma create_file_keeps_well_keyed f :
  preserves keeps_well_keyed (create_file f).
Proof. state_unchanged. Qed.

Create HintDb run_invariants.
#[export] Hint Resolve emit_configs_same os_listdir_configs_same
  os_path_exists_configs_same create_file_configs_same
  emit_files_from_transfers os_listdir_files_from_transfers
  os_path_exists_files_from_transfers
  emit_keeps_well_keyed os_listdir_keeps_well_keyed
  os_path_exists_keeps_well_keyed create_file_keeps_well_keyed
  : run_invariants.

Ltac run_invariant_tac :=
  repeat first [ solve [eauto with run_invariants] | preserves_step ].

Section more_invariants.
Context (self : ModelUpdater).
Context (download_file : string → string → Z → download_result).

Lemma call_download_file_configs_same url f size :
  preserves configs_same (call_download_file download_file url f size).
Proof. unfold call_download_file. run_invariant_tac. Qed.

Lemma call_download_file_keeps_well_keyed url f size :
  preserves keeps_well_keyed (call_download_file download_file url f size).
Proof. unfold call_download_file. run_invariant_tac. Qed.

Lemma call_download_file_files_from_transfers url f size :
  preserves files_from_transfers (call_download_file download_file url f size).
Proof.
  intros st. unfold call_download_file, bind, emit, create_file.
  destruct (writes_file _), (raises _); simpl.
  all: split; [set_solver |]; intros g Hg.
  all: try (by left).
  all: apply elem_of_union in Hg as [->%elem_of_singleton | ?];
    [right; left | by left].
Qed.

#[local] Hint Resolve call_download_file_configs_same
  call_download_file_keeps_well_keyed call_download_file_files_from_transfers
  : run_invariants.

Lemma fetch_urls_invariant P `{!Composable P} urls acc :
  (∀ e, preserves P (emit e)) → preserves P (fetch_urls self urls acc).
Proof.
  intros Hemit. revert acc.
  induction urls as [|url urls IH]; intros acc; simpl.
  - apply (preserves_ret _).
  - repeat first [ apply Hemit | apply IH | preserves_step ].
Qed.

Lemma remote_names_invariant P `{!Composable P} l :
  preserves P (remote_names l).
Proof. induction l as [|mi l IH]; simpl; repeat preserves_step; done. Qed.

Lemma next_model_invariant P `{!Composable P} id l :
  preserves P (next_model id l).
Proof. induction l as [|mi l IH]; simpl; repeat preserves_step; done. Qed.

Lemma is_update_required_invariant P `{!Composable P} l :
  (∀ e, preserves P (emit e)) → preserves P os_listdir →
  preserves P (is_update_required l).
Proof.
  intros Hemit Hlist. unfold is_update_required, print.
  repeat first [ apply Hemit | apply Hlist | apply (remote_names_invariant _)
               | preserves_step ].
Qed.

Lemma download_single_model_invariant P `{!Composable P} mi :
  (∀ e, preserves P (emit e)) → (∀ f, preserves P (os_path_exists f)) →
  (∀ url f size, preserves P (call_download_file download_file url f size)) →
  preserves P (download_single_model download_file mi).
Proof.
  intros Hemit Hexists Hcall. unfold download_single_model, print.
  repeat first [ apply Hemit | apply Hexists | apply Hcall | preserves_step ].
Qed.

Lemma download_new_models_configs_same l :
  preserves configs_same (download_new_models download_file l).
Proof.
  apply (preserves_for_each _). intros mi.
  apply (download_single_model_invariant _); eauto with run_invariants.
Qed.

(** The merge keeps files, makes no call and files a record under its own
    name and kind. *)
Lemma update_config_single_model_files_from_transfers mi :
  preserves files_from_transfers (update_config_single_model mi).
Proof.
  intros st. unfold update_config_single_model, bind, getitem.
  destruct (name mi) as [n|]; simpl.
  - destruct (vae mi); simpl; case_decide; simpl;
      (split; [done |]; intros g ?; by left).
  - split; [done |]. intros g ?. by left.
Qed.

Lemma update_config_single_model_keeps_well_keyed mi :
  preserves keeps_well_keyed (update_config_single_model mi).
Proof.
  intros st Hwk. unfold update_config_single_model, bind, getitem.
  destruct (name mi) as [n|] eqn:Hn; simpl; [| done].
  destruct (vae mi) as [b|] eqn:Hv; simpl; case_decide; simpl; try done.
  - intros [] n' x; simpl; [| apply (Hwk false)].
    intros [[<- <-] | [_ ?]]%lookup_insert_Some; [| by apply (Hwk true)].
    split; [done |]. unfold is_vae. by rewrite Hv.
  - intros [] n' x; simpl; [apply (Hwk true) |].
    intros [[<- <-] | [_ ?]]%lookup_insert_Some; [| by apply (Hwk false)].
    split; [done |]. unfold is_vae. by rewrite Hv.
Qed.

Lemma update_models_invariant P `{!Composable P} :
  (∀ e, preserves P (emit e)) → preserves P os_listdir →
  (∀ f, preserves P (os_path_exists f)) →
  (∀ url f size, preserves P (call_download_file download_file url f size)) →
  (∀ mi, preserves P (update_config_single_model mi)) →
  preserves P (update_models self download_file).
Proof.
  intros Hemit Hlist Hexists Hcall Hmerge.
  unfold update_models, fetch_remote_model_list, download_new_models,
    update_configs, print.
  repeat first
    [ apply Hemit | apply Hmerge
    | apply (fetch_urls_invariant _); [done]
    | apply (is_update_required_invariant _); [done | done]
    | apply (download_single_model_invariant _); [done | done | done]
    | preserves_step ].
Qed.

Lemma update_single_model_invariant P `{!Composable P} id :
  (∀ e, preserves P (emit e)) →
  (∀ f, preserves P (os_path_exists f)) →
  (∀ url f size, preserves P (call_download_file download_file url f size)) →
  (∀ mi, preserves P (update_config_single_model mi)) →
  preserves P (update_single_model self download_file id).
Proof.
  intros Hemit Hexists Hcall Hmerge.
  unfold update_single_model, fetch_remote_model_list, print.
  repeat first
    [ apply Hemit | apply Hmerge
    | apply (fetch_urls_invariant _); [done]
    | apply (next_model_invariant _)
    | apply (download_single_model_invariant _); [done | done | done]
    | preserves_step ].
Qed.
End more_invariants.

#[export] Hint Resolve call_download_file_configs_same
  call_download_file_keeps_well_keyed call_download_file_files_from_transfers
  update_config_single_model_files_from_transfers
  update_config_single_model_keeps_well_keyed : run_invariants.

(** ** What a pass may change *)

Lemma next_model_some id l st mi :
  outcome_of (next_model id l st) = Ret (Some mi) → name mi = Some id.
Proof.
  induction l as [|x l IH]; simpl; [done |].
  unfold bind, getitem. destruct (name x) as [n|] eqn:Hn; simpl; [| done].
  destruct (String.eqb n id) eqn:Heq; simpl.
  - intros [= <-]. apply String.eqb_eq in Heq. congruence.
  - exact IH.
Qed.

Lemma next_model_pure id l st :
  state_of (next_model id l st) = st ∧ events_of (next_model id l st) = [].
Proof.
  induction l as [|x l IH]; simpl; [done |].
  unfold bind, getitem. destruct (name x) as [n|]; simpl; [| done].
  destruct (String.eqb n id); simpl; [done | exact IH].
Qed.

Lemma update_configs_no_events l st : events_of (update_configs l st) = [].
Proof.
  unfold update_configs. revert st. induction l as [|d l IH]; intros st; [done |].
  rewrite for_each_cons. unfold bind.
  destruct (name d) as [n|] eqn:Hn.
  - destruct (update_config_single_model_run d n st Hn) as (-> & -> & _).
    simpl. apply IH.
  - by rewrite update_config_single_model_unnamed.
Qed.

Section changes.
Context (self : ModelUpdater).
Context (download_file : string → string → Z → download_result).

(** X7: no method ever removes an entry of the models directory, and the
    only entries a run adds are destinations of transfers it made: after
    [update_models] or [update_single_model], whether it returned or
    raised, every file was there before or [download_file] was called for
    it during the run. *)
Theorem new_files_are_transfer_destinations st :
  (local_files st ⊆
     local_files (state_of (update_models self download_file st)) ∧
   ∀ g, g ∈ local_files (state_of (update_models self download_file st)) →
        g ∈ local_files st ∨
        ∃ url size,
          DownloadFile url g size ∈
            events_of (update_models self download_file st)) ∧
  (∀ id,
     local_files st ⊆
       local_files (state_of (update_single_model self download_file id st)) ∧
     ∀ g,
       g ∈ local_files
             (state_of (update_single_model self download_file id st)) →
       g ∈ local_files st ∨
       ∃ url size,
         DownloadFile url g size ∈
           events_of (update_single_model self download_file id st)).
Proof.
  split.
  - assert (preserves files_from_transfers (update_models self download_file))
      as Hrun.
    { apply (update_models_invariant self download_file files_from_transfers);
        eauto using update_config_single_model_files_from_transfers
          with run_invariants. }
    destruct (Hrun st) as [Hsub Hnew].
    split; [done |]. intros g Hg. rewrite <- elem_of_destinations. auto.
  - intros id.
    assert (preserves files_from_transfers
              (update_single_model self download_file id)) as Hrun.
    { apply (update_single_model_invariant self download_file
               files_from_transfers);
        eauto using update_config_single_model_files_from_transfers
          with run_invariants. }
    destruct (Hrun st) as [Hsub Hnew].
    split; [done |]. intros g Hg. rewrite <- elem_of_destinations. auto.
Qed.

(** X8: the configuration store stays well keyed.  If every entry is stored
    under its own name and in the partition of its kind, this is still so
    after [update_models], after [update_single_model] and after
    [update_configs], whether they return or raise. *)
Theorem store_stays_well_keyed st :
  well_keyed st →
  well_keyed (state_of (update_models self download_file st)) ∧
  (∀ id, well_keyed (state_of (update_single_model self download_file id st))) ∧
  (∀ l, well_keyed (state_of (update_configs l st))).
Proof.
  intros Hwk. split; [| split].
  - assert (preserves keeps_well_keyed (update_models self download_file))
      as Hrun; [| by apply Hrun].
    apply (update_models_invariant self download_file keeps_well_keyed);
      eauto using update_config_single_model_keeps_well_keyed
        with run_invariants.
  - intros id.
    assert (preserves keeps_well_keyed
              (update_single_model self download_file id))
      as Hrun; [| by apply Hrun].
    apply (update_single_model_invariant self download_file keeps_well_keyed);
      eauto using update_config_single_model_keeps_well_keyed
        with run_invariants.
  - intros l.
    assert (preserves keeps_well_keyed (update_configs l))
      as Hrun; [| by apply Hrun].
    apply (preserves_for_each keeps_well_keyed).
    apply update_config_single_model_keeps_well_keyed.
Qed.

(** X9: a pass that fails changes no configuration.  If [update_models]
    raises, both partitions of the store are exactly as they were: the
    merge loop is entered only after every download returned, and inside a
    pass it cannot raise. *)
Theorem failed_pass_leaves_store_unchanged st e :
  outcome_of (update_models self download_file st) = Raise e →
  model_configs (state_of (update_models self download_file st)) =
    model_configs st ∧
  vae_configs (state_of (update_models self download_file st)) =
    vae_configs st.
Proof.
  destruct (fetch_remote_model_list_run self) as (v & evs & Hfetch & _).
  destruct (not_list v) eqn:Hv.
  { by rewrite (update_models_not_list self download_file v evs st). }
  destruct v as [l|]; [| done].
  assert (l ≠ []) as Hl by (by intros ->).
  rewrite (update_models_steps self download_file l evs st) by done.
  destruct (is_update_required_run l st) as (o & evs1 & Hrun & Ho).
  rewrite Hrun. run_simpl.
  destruct o as [[|]|e1]; [| done | done].
  destruct Ho as (Hnamed & _).
  pose proof (download_new_models_configs_same download_file l st) as Hsame.
  set (rd := download_new_models download_file l st) in *.
  destruct (outcome_of rd) as [[]|e1]; [| by intros _].
  destruct (update_configs_run l (state_of rd) Hnamed) as (Hc & _).
  by rewrite Hc.
Qed.

(** X10: the same for one artifact.  If [update_single_model] raises, be it
    for a record without a name before the match, for a matching record
    that is incomplete, or because the transfer raised, the configuration
    store is exactly as it was. *)
Theorem failed_single_update_leaves_store_unchanged id st e :
  outcome_of (update_single_model self download_file id st) = Raise e →
  model_configs (state_of (update_single_model self download_file id st)) =
    model_configs st ∧
  vae_configs (state_of (update_single_model self download_file id st)) =
    vae_configs st.
Proof.
  destruct (fetch_remote_model_list_run self) as (v & evs & Hfetch & _).
  destruct (not_list v) eqn:Hv.
  { by rewrite (update_single_model_not_list self download_file v evs id st). }
  unfold update_single_model.
  rewrite (bind_ret_run _ _ st v) by (by rewrite Hfetch).
  rewrite Hfetch. run_simpl. rewrite Hv.
  destruct (next_model_pure id (default [] v) st) as [Hst Hev].
  destruct (outcome_of (next_model id (default [] v) st)) as [[mi|]|e1] eqn:Hnext.
  - rewrite (bind_ret_run _ _ st (Some mi)) by done. rewrite Hst. run_simpl.
    apply next_model_some in Hnext.
    pose proof (download_single_model_invariant download_file configs_same mi)
      as Hsame.
    specialize (Hsame emit_configs_same os_path_exists_configs_same
                  (call_download_file_configs_same download_file) st).
    set (rd := download_single_model download_file mi st) in *.
    destruct (outcome_of rd) as [[]|e1] eqn:Hd.
    + rewrite (bind_ret_run _ _ st tt) by done. fold rd. run_simpl.
      destruct (update_config_single_model_run mi id (state_of rd) Hnext)
        as (Hc & _).
      rewrite (bind_ret_run _ _ (state_of rd) tt) by done. run_simpl.
      unfold getitem. rewrite Hnext. by unfold bind.
    + rewrite (bind_raise_run _ _ st e1) by done. fold rd. by intros _.
  - rewrite (bind_ret_run _ _ st None) by done. by unfold print, emit.
  - rewrite (bind_raise_run _ _ st e1) by done. run_simpl.
    rewrite Hst. by intros _.
Qed.
End changes.

(** ** The transfers of a pass *)

Section transfers.
Context (self : ModelUpdater).
Context (download_file : string → string → Z → download_result).

(** The calls of a pass, cut around those of the download loop. *)
Lemma update_models_events l evs st :
  fetch_remote_model_list self st = Result (Ret (Some l)) st evs →
  ∃ pre mid post,
    events_of (update_models self download_file st) = pre ++ mid ++ post ∧
    Forall (λ e, is_download e = false) pre ∧
    Forall (λ e, is_download e = false) post ∧
    (mid = [] ∨ mid = events_of (download_new_models download_file l st)).
Proof.
  intros Hfetch.
  destruct (fetch_remote_model_list_run self) as (v & evs' & Hrun & Hcat).
  rewrite Hrun in Hfetch. injection Hfetch as -> ->.
  apply catalog_event_no_download in Hcat.
  destruct (decide (l = [])) as [-> | Hl].
  { rewrite (update_models_not_list self download_file _ _ st (Hrun st))
      by done.
    exists evs, [], [Stdout CouldNotFetch]. simpl.
    split; [done |]. split; [done |]. split; [by repeat constructor | by left]. }
  rewrite (update_models_steps self download_file l evs st (Hrun st) Hl).
  destruct (is_update_required_run l st) as (o & evs1 & Hreq & Ho).
  rewrite Hreq. run_simpl.
  assert (Forall (λ e, is_download e = false) evs1) as Hevs1.
  { destruct o as [[|]|e].
    - destruct Ho as (_ & _ & missing & ->). by repeat constructor.
    - destruct Ho as (_ & _ & ->). by repeat constructor.
    - destruct Ho as (_ & ->). by repeat constructor. }
  destruct o as [[|]|e].
  - set (rd := download_new_models download_file l st).
    rewrite update_configs_no_events.
    destruct (outcome_of rd) as [[]|e].
    + destruct (outcome_of (update_configs l (state_of rd))); run_simpl.
      * exists (evs ++ evs1), (events_of rd), [Stdout UpdatesCompleted].
        rewrite <- !app_assoc. split; [done |].
        split; [by apply Forall_app |].
        split; [by repeat constructor | by right].
      * exists (evs ++ evs1), (events_of rd), [].
        rewrite <- !app_assoc. split; [done |].
        split; [by apply Forall_app |]. split; [constructor | by right].
    + run_simpl. exists (evs ++ evs1), (events_of rd), [].
      rewrite <- !app_assoc, app_nil_r. split; [done |].
      split; [by apply Forall_app |]. split; [constructor | by right].
  - run_simpl. exists (evs ++ evs1), [], [Stdout NoUpdatesRequired].
    rewrite <- !app_assoc. split; [done |].
    split; [by apply Forall_app |].
    split; [by repeat constructor | by left].
  - run_simpl. exists (evs ++ evs1), [], [].
    rewrite <- !app_assoc, app_nil_r. split; [done |].
    split; [by apply Forall_app |]. split; [constructor | by left].
Qed.

Lemma download_single_model_transfer mi st e :
  e ∈ events_of (download_single_model download_file mi st) →
  is_download e = true →
  transfer_event mi = Some e.
Proof.
  unfold download_single_model, call_download_file, os_path_exists, print,
    emit, getitem, bind, create_file, transfer_event.
  destruct (name mi) as [n|]; simpl; [| by intros ?%elem_of_nil].
  destruct (file_url mi) as [url|]; simpl; [| by intros ?%elem_of_nil].
  destruct (size_mb mi) as [size|]; simpl; [| by intros ?%elem_of_nil].
  replace (size * 1048576)%Z with (size * 1024 * 1024)%Z by lia.
  case_bool_decide; simpl.
  - intros ->%list_elem_of_singleton. discriminate.
  - destruct (writes_file _), (raises _); simpl;
      intros Hin%list_elem_of_In; simpl in Hin;
      destruct Hin as [<- | [<- | [<- | []]]]; done.
Qed.

Lemma download_new_models_transfer l st e :
  e ∈ events_of (download_new_models download_file l st) →
  is_download e = true →
  ∃ mi, mi ∈ l ∧ transfer_event mi = Some e.
Proof.
  unfold download_new_models. revert st.
  induction l as [|d l IH]; intros st; [by intros ?%elem_of_nil |].
  rewrite for_each_cons. unfold bind.
  destruct (outcome_of (download_single_model download_file d st)); simpl.
  - intros [Hin | Hin]%elem_of_app Hdl.
    + exists d. split; [left |]. by eapply download_single_model_transfer.
    + destruct (IH _ Hin Hdl) as (mi & ? & ?). exists mi. split; [by right | done].
  - intros Hin Hdl.
    exists d. split; [left |]. by eapply download_single_model_transfer.
Qed.

(** X11: [update_models] transfers only what the catalog lists.  Every
    call of [download_file] in a pass is made for a record of the fetched
    list: with that record's URL, with its name followed by [.safetensors]
    as destination, and with its size in MB times 1048576 as the number of
    bytes. *)
Theorem transfers_are_listed l evs st url f total :
  fetch_remote_model_list self st = Result (Ret (Some l)) st evs →
  DownloadFile url f total ∈ events_of (update_models self download_file st) →
  ∃ mi n size,
    mi ∈ l ∧ name mi = Some n ∧ file_url mi = Some url ∧
    size_mb mi = Some size ∧
    f = n +:+ safetensors ∧ total = (size * 1048576)%Z.
Proof.
  intros Hfetch Hin.
  destruct (update_models_events l evs st Hfetch)
    as (pre & mid & post & Hev & Hpre & Hpost & Hmid).
  rewrite Hev in Hin.
  assert (DownloadFile url f total ∈ mid) as Hin'.
  { apply elem_of_app in Hin as [Hin | Hin].
    { rewrite Forall_forall in Hpre. by apply Hpre in Hin. }
    apply elem_of_app in Hin as [Hin | Hin]; [done |].
    rewrite Forall_forall in Hpost. by apply Hpost in Hin. }
  destruct Hmid as [-> | ->]; [by apply elem_of_nil in Hin' |].
  destruct (download_new_models_transfer l st _ Hin' eq_refl)
    as (mi & Hmi & Htr).
  unfold transfer_event in Htr.
  destruct (name mi) as [n|] eqn:Hn; [| done].
  destruct (file_url mi) as [url'|] eqn:Hurl; [| done].
  destruct (size_mb mi) as [size|] eqn:Hsize; [| done].
  injection Htr as <- <- <-. by exists mi, n, size.
Qed.

Lemma download_new_models_once l st :
  (∀ url f size,
     DownloadFile url f size ∈
       events_of (download_new_models download_file l st) →
     writes_file (download_file url f size) = true) →
  NoDup (destinations (events_of (download_new_models download_file l st))) ∧
  ∀ f, f ∈ destinations (events_of (download_new_models download_file l st)) →
       f ∉ local_files st.
Proof.
  unfold download_new_models. revert st.
  induction l as [|d l IH]; intros st.
  { intros _. split; [constructor |]. by intros f ?%elem_of_nil. }
  rewrite for_each_cons.
  destruct (decide (complete d)) as [Hd | Hd]; cycle 1.
  { rewrite (bind_raise_run _ _ st (KeyError (first_missing_key d)))
      by (by rewrite incomplete_record_is_not_downloaded_aux).
    rewrite incomplete_record_is_not_downloaded_aux by done.
    intros _. split; [constructor |]. by intros f ?%elem_of_nil. }
  pose proof Hd as ([n Hn] & [url Hurl] & [size Hsize]).
  destruct (decide (n +:+ safetensors ∈ local_files st)) as [Hf | Hf].
  - rewrite (bind_ret_run _ _ st tt)
      by (by rewrite (download_single_model_present download_file d n st)).
    rewrite (download_single_model_present download_file d n st) by done.
    run_simpl. intros Hok. simpl. apply IH.
    intros url' f' size' Hin. apply Hok. by right.
  - pose proof (download_single_model_absent download_file d n url size st
                  Hn Hurl Hsize Hf) as Hrun.
    cbv zeta in Hrun.
    set (f := n +:+ safetensors) in *.
    set (total := (size * 1024 * 1024)%Z) in *.
    destruct (raises (download_file url f total)) eqn:Hraise.
    + rewrite (bind_raise_run _ _ st DownloadError) by (by rewrite Hrun).
      rewrite Hrun. run_simpl. intros _. simpl.
      split; [apply NoDup_singleton |].
      by intros g ->%list_elem_of_singleton.
    + rewrite (bind_ret_run _ _ st tt) by (by rewrite Hrun).
      rewrite Hrun. run_simpl. intros Hok.
      assert (writes_file (download_file url f total) = true) as Hw
        by (apply Hok; do 2 right; left).
      rewrite Hw in Hok |- *.
      destruct (IH (add_file f st)) as [Hnd Hfresh].
      { intros url' f' size' Hin. apply Hok. do 3 right. exact Hin. }
      simpl. split.
      * constructor; [| done]. intros Hin%Hfresh. apply Hin. simpl.
        apply elem_of_union_l. by apply elem_of_singleton.
      * intros g [-> | Hg%Hfresh]%elem_of_cons; [done |].
        intros Hin. apply Hg. simpl. by apply elem_of_union_r.
Qed.

(** X12: within one pass a file is fetched at most once.  As long as the
    transfers of the pass leave their files behind, no two calls of
    [download_file] in [update_models] have the same destination, also when
    the catalog lists a name twice, and none of them has a destination that
    was in the directory when the pass began. *)
Theorem each_file_is_fetched_once l evs st :
  fetch_remote_model_list self st = Result (Ret (Some l)) st evs →
  (∀ url f size,
     DownloadFile url f size ∈ events_of (update_models self download_file st) →
     writes_file (download_file url f size) = true) →
  NoDup (destinations (events_of (update_models self download_file st))) ∧
  ∀ f, f ∈ destinations (events_of (update_models self download_file st)) →
       f ∉ local_files st.
Proof.
  intros Hfetch Hok.
  destruct (update_models_events l evs st Hfetch)
    as (pre & mid & post & Hev & Hpre & Hpost & Hmid).
  rewrite Hev in Hok. rewrite Hev, !destinations_app.
  rewrite (destinations_no_download pre), (destinations_no_download post)
    by done.
  rewrite app_nil_r. simpl.
  destruct Hmid as [-> | ->].
  { split; [constructor |]. by intros f ?%elem_of_nil. }
  apply download_new_models_once.
  intros url f size Hin. apply Hok.
  apply elem_of_app. right. apply elem_of_app. by left.
Qed.
End transfers.

(** ** The merge *)

(** X13: what one merge does.  [update_config_single_model] on a record
    with a name returns without any call and without touching the
    directory.  The record goes to the VAE partition exactly when it has
    the key ['vae'], whatever the value of that key, and to the model
    partition otherwise; there it is stored under its name if the name is
    free, and nothing else in either partition changes. *)
Theorem merge_files_record_by_key_presence mi n st :
  name mi = Some n →
  outcome_of (update_config_single_model mi st) = Ret tt ∧
  events_of (update_config_single_model mi st) = [] ∧
  local_files (state_of (update_config_single_model mi st)) = local_files st ∧
  (∀ n',
     vae_configs (state_of (update_config_single_model mi st)) !! n' =
       if decide (is_Some (vae mi) ∧ n' = n ∧ n ∉ dom (vae_configs st))
       then Some mi else vae_configs st !! n') ∧
  (∀ n',
     model_configs (state_of (update_config_single_model mi st)) !! n' =
       if decide (vae mi = None ∧ n' = n ∧ n ∉ dom (model_configs st))
       then Some mi else model_configs st !! n').
Proof.
  intros Hn. unfold update_config_single_model, bind, getitem.
  rewrite Hn; simpl.
  destruct (vae mi) as [b|] eqn:Hv; simpl; case_decide as Hdom; simpl.
  all: do 3 (split; [done |]).
  all: split; intros n'.
  all: destruct (decide (n' = n)) as [-> | Hne].
  all: rewrite ?lookup_insert_eq, ?lookup_insert_ne by done.
  all: try done.
  all: case_decide as Hc; try done.
  all: try (by destruct Hc as (_ & ? & _)).
  all: try (by destruct Hc as (_ & _ & ?)).
  all: destruct Hc; split; [by eexists || done | by split].
Qed.

Lemma update_configs_again l st st' :
  model_configs (state_of (update_configs l st)) ⊆ model_configs st' →
  vae_configs (state_of (update_configs l st)) ⊆ vae_configs st' →
  update_configs l st' = Result (outcome_of (update_configs l st)) st' [].
Proof.
  unfold update_configs. revert st.
  induction l as [|d l IH]; intros st; [done |].
  rewrite !for_each_cons.
  destruct (name d) as [n|] eqn:Hn; cycle 1.
  { rewrite !(bind_raise_run _ _ _ (KeyError "name"))
      by (by rewrite update_config_single_model_unnamed).
    by rewrite !update_config_single_model_unnamed. }
  destruct (update_config_single_model_run d n st Hn)
    as (Ho & Hev & _ & Hpart & _).
  rewrite (bind_ret_run _ _ st tt) by done. run_simpl.
  set (st1 := state_of (update_config_single_model d st)) in *.
  intros Hm Hv.
  pose proof (update_configs_configs_kept l st1) as [Hkm Hkv].
  unfold update_configs in Hkm, Hkv.
  assert (n ∈ dom (partition_of d st')) as Hdom.
  { assert (n ∈ dom (partition_of d st1)) as Hdom1.
    { rewrite Hpart. case_decide; [done |]. rewrite dom_insert_L.
      apply elem_of_union_l. by apply elem_of_singleton. }
    revert Hdom1. unfold partition_of, configs_of.
    destruct (is_vae d); apply subseteq_dom; by etrans. }
  assert (update_config_single_model d st' = Result (Ret tt) st' []) as Hd.
  { revert Hdom.
    unfold update_config_single_model, bind, getitem, partition_of,
      configs_of, is_vae.
    rewrite Hn; simpl. destruct (vae d); simpl; intros Hdom;
      by rewrite decide_True. }
  rewrite (bind_ret_run _ _ st' tt) by (by rewrite Hd).
  rewrite Hd. run_simpl. by rewrite (IH st1 Hm Hv).
Qed.

(** X14: the merge loop is idempotent.  Running [update_configs] again on
    the state it left, with the same list, changes nothing and ends the
    same way, whether the first run returned or stopped at a record
    without a name. *)
Theorem merge_loop_is_idempotent l st :
  update_configs l (state_of (update_configs l st)) =
    Result (outcome_of (update_configs l st)) (state_of (update_configs l st))
      [].
Proof. by apply update_configs_again. Qed.

(** X15: among records with the same name and kind the first one wins.  If
    the partition of [mi] has nothing under the name of [mi], every record
    before [mi] in the list has a name and none of them has that name and
    kind, then after [update_configs] the partition holds [mi] under that
    name, whatever comes later in the list. *)
Theorem first_record_of_a_name_is_stored l1 mi l2 n st :
  Forall (λ x, named x ∧ ¬ (name x = Some n ∧ is_vae x = is_vae mi)) l1 →
  name mi = Some n →
  partition_of mi st !! n = None →
  partition_of mi (state_of (update_configs (l1 ++ mi :: l2) st)) !! n =
    Some mi.
Proof.
  intros Hl1 Hn. revert st. unfold update_configs.
  induction Hl1 as [|x l1 [[nx Hnx] Hother] _ IH]; intros st Hfree; simpl.
  - destruct (update_config_single_model_run mi n st Hn)
      as (Ho & _ & _ & Hpart & _).
    rewrite (bind_ret_run _ _ st tt) by done. run_simpl.
    set (st1 := state_of (update_config_single_model mi st)) in *.
    assert (partition_of mi st1 !! n = Some mi) as Hin.
    { rewrite Hpart. rewrite decide_False by (by apply not_elem_of_dom).
      apply lookup_insert_eq. }
    pose proof (update_configs_configs_kept l2 st1) as [Hkm Hkv].
    revert Hin. unfold update_configs in *. unfold partition_of, configs_of.
    destruct (is_vae mi); intros Hin; by eapply lookup_weaken.
  - destruct (update_config_single_model_run x nx st Hnx)
      as (Ho & _ & _ & Hpart & Hrest).
    rewrite (bind_ret_run _ _ st tt) by done. run_simpl.
    apply IH.
    set (st1 := state_of (update_config_single_model x st)) in *.
    revert Hfree Hpart Hrest. unfold partition_of, other_partition_of.
    destruct (decide (is_vae x = is_vae mi)) as [Hkind | Hne].
    + rewrite <- Hkind. intros Hfree -> _. case_decide; [done |].
      rewrite lookup_insert_ne; [done |].
      intros Heq. apply Hother. split; congruence.
    + replace (is_vae mi) with (negb (is_vae x))
        by (destruct (is_vae x), (is_vae mi); simpl; congruence).
      intros Hfree _ ->. done.
Qed.

(** ** One pass is enough *)

Section convergence.
Context (self : ModelUpdater).
Context (download_file : string → string → Z → download_result).

(** X16: one pass brings every listed file.  If every record of the
    catalog is complete and every transfer succeeds, then [update_models]
    returns normally, afterwards every listed name has its [.safetensors]
    file in the directory, and [is_update_required] on the state it left
    answers no. *)
Theorem one_pass_brings_every_listed_file l evs st :
  fetch_remote_model_list self st = Result (Ret (Some l)) st evs →
  Forall complete l →
  (∀ mi, mi ∈ l → transfer_of download_file mi = Some download_ok) →
  outcome_of (update_models self download_file st) = Ret tt ∧
  (∀ n, listed l n →
        n +:+ safetensors ∈
          local_files (state_of (update_models self download_file st))) ∧
  outcome_of
    (is_update_required l (state_of (update_models self download_file st))) =
    Ret false.
Proof.
  intros Hfetch Hcomplete Hok.
  assert (Forall named l) as Hnamed.
  { eapply Forall_impl; [exact Hcomplete |]. by intros ? [? _]. }
  assert (outcome_of (update_models self download_file st) = Ret tt ∧
          ∀ n, listed l n →
               n +:+ safetensors ∈
                 local_files (state_of (update_models self download_file st)))
    as [Ho Hfiles].
  { destruct (decide (l = [])) as [-> | Hl].
    { rewrite (update_models_not_list self download_file _ _ st Hfetch)
        by done.
      split; [done |]. intros n (mi & Hin & _). by apply elem_of_nil in Hin. }
    destruct (is_update_required_run l st) as (o & evs1 & Hrun & Hreq).
    destruct o as [[|]|e]; [| | by destruct Hreq as [? _]].
    - destruct Hreq as (_ & Hmissing & _).
      destruct (update_models_every_record self download_file l evs st)
        as [Ho Hall]; [done | done | | done |].
      { intros mi dr Hin Htr. rewrite (Hok mi Hin) in Htr.
        by injection Htr as <-. }
      split; [done |]. intros n (mi & Hin & Hn).
      destruct (Hall mi n Hin Hn) as (_ & _ & Hfile & _). by apply Hfile, Hok.
    - destruct Hreq as (_ & Hpresent & _).
      by rewrite (update_models_no_update self download_file l evs st). }
  split; [done |]. split; [done |].
  destruct (is_update_required_run l
              (state_of (update_models self download_file st)))
    as (o & evs1 & Hrun & Hreq).
  rewrite Hrun. run_simpl.
  destruct o as [[|]|e]; [| done | by destruct Hreq as [? _]].
  destruct Hreq as (_ & (n & Hn & Hmiss) & _). destruct Hmiss. auto.
Qed.
End convergence.

(** ** The scheduler loop *)

Lemma pass_events_app e1 e2 :
  pass_events (e1 ++ e2) = pass_events e1 ++ pass_events e2.
Proof.
  induction e1 as [|e e1 IH]; [done |]. destruct e; simpl; by rewrite ?IH.
Qed.

Lemma pass_events_in_pass evs : pass_events (InPass <$> evs) = evs.
Proof.
  induction evs as [|e evs IH]; [done |].
  rewrite fmap_cons. cbn [pass_events]. by rewrite IH.
Qed.

Section scheduler_proofs.
Context (self : ModelUpdater).
Context (download_file : string → string → Z → download_result).

Lemma scheduler_loop_keeps due st :
  (∀ k A d, holds_entry k A d st →
            holds_entry k A d
              (loop_state_of (scheduler_loop self download_file due st))) ∧
  (∀ f, f ∈ local_files st →
        f ∈ local_files
              (loop_state_of (scheduler_loop self download_file due st)) ∧
        ∀ url size,
          DownloadFile url f size ∉
            pass_events
              (loop_events_of (scheduler_loop self download_file due st))).
Proof.
  revert st. induction due as [|[|] due IH]; intros st; simpl.
  - split; [done |]. intros f Hf. split; [done |].
    by intros url size ?%elem_of_nil.
  - assert (∀ k A d, holds_entry k A d st →
              holds_entry k A d
                (state_of (update_models self download_file st))) as Hentry.
    { intros k A d Hd.
      destruct (update_models_configs_kept self download_file st)
        as [Hmc Hvc].
      revert Hd. unfold holds_entry, configs_of.
      destruct k; intros Hd; by eapply lookup_weaken. }
    assert (∀ f, f ∈ local_files st →
              f ∈ local_files (state_of (update_models self download_file st))
              ∧ ∀ url size,
                  DownloadFile url f size ∉
                    events_of (update_models self download_file st))
      as Hfile.
    { intros f Hf.
      destruct (update_models_no_transfer self download_file f st)
        as [Hsub Hno].
      split; [by apply Hsub | by apply Hno]. }
    set (p := update_models self download_file st) in *.
    destruct (outcome_of p) as [[]|e]; simpl.
    + destruct (IH (state_of p)) as [IHentry IHfile]. split.
      * intros k A d Hd. by apply IHentry, Hentry.
      * intros f Hf. destruct (Hfile f Hf) as [Hf1 Hno1].
        destruct (IHfile f Hf1) as [Hf2 Hno2]. split; [done |].
        intros url size.
        rewrite pass_events_app, pass_events_in_pass. simpl.
        intros [? | ?]%elem_of_app; [by eapply Hno1 | by eapply Hno2].
    + split; [done |]. intros f Hf. destruct (Hfile f Hf) as [Hf1 Hno1].
      split; [done |]. intros url size. rewrite pass_events_in_pass.
      apply Hno1.
  - exact (IH st).
Qed.

(** X17: an exception in a pass ends the scheduler.  If the pass that runs
    at the first due turn raises, [start_scheduled_updates] is left with
    that exception right there: after its line of output and the sleeps of
    the turns before, the loop has made the calls of that one pass and
    nothing more, however many turns would have followed. *)
Theorem exception_ends_scheduler_loop n k rest st e :
  outcome_of (update_models self download_file st) = Raise e →
  start_scheduled_updates self download_file n
    (replicate k false ++ true :: rest) st =
    LoopResult (Crashed e) (state_of (update_models self download_file st))
      (Scheduled n :: replicate k Sleep ++
       (InPass <$> events_of (update_models self download_file st))).
Proof.
  intros Hraise. unfold start_scheduled_updates.
  assert (scheduler_loop self download_file
            (replicate k false ++ true :: rest) st =
          LoopResult (Crashed e)
            (state_of (update_models self download_file st))
            (replicate k Sleep ++
             (InPass <$> events_of (update_models self download_file st))))
    as ->; [| done].
  induction k as [|k IH]; simpl.
  - by rewrite Hraise.
  - by rewrite IH.
Qed.

(** X18: what holds of one pass holds of the loop.  Over any number of
    turns of [start_scheduled_updates], due or not, an entry of the
    configuration store is never replaced, a file of the models directory
    is never removed, and no pass of the loop transfers a file that was
    there when the loop started. *)
Theorem scheduled_passes_keep_entries_and_files n due st :
  (∀ k A d, holds_entry k A d st →
            holds_entry k A d
              (loop_state_of
                 (start_scheduled_updates self download_file n due st))) ∧
  (∀ f, f ∈ local_files st →
        f ∈ local_files
              (loop_state_of
                 (start_scheduled_updates self download_file n due st)) ∧
        ∀ url size,
          DownloadFile url f size ∉
            pass_events
              (loop_events_of
                 (start_scheduled_updates self download_file n due st))).
Proof. exact (scheduler_loop_keeps due st). Qed.

(** X19: once every listed name has its file the loop is idle.  With a
    catalog that is not empty, whose records all have names and whose
    files are all in the directory, every turn of the loop leaves the
    state as it is: after any number of turns the loop is still running,
    the state is the one it started from, and no transfer was attempted. *)
Theorem scheduler_is_idle_once_files_are_there n due l evs st :
  fetch_remote_model_list self st = Result (Ret (Some l)) st evs →
  l ≠ [] → Forall named l →
  (∀ m, listed l m → m +:+ safetensors ∈ local_files st) →
  loop_outcome_of (start_scheduled_updates self download_file n due st) =
    Running ∧
  loop_state_of (start_scheduled_updates self download_file n due st) = st ∧
  fetches
    (pass_events
       (loop_events_of (start_scheduled_updates self download_file n due st)))
    = 0.
Proof.
  intros Hfetch Hl Hnamed Hfiles.
  pose proof (update_models_no_update self download_file l evs st Hfetch Hl
                Hnamed Hfiles) as Hpass.
  assert (fetches evs = 0) as Hevs.
  { destruct (fetch_remote_model_list_run self) as (v & evs' & Hrun & Hcat).
    rewrite Hrun in Hfetch. injection Hfetch as _ <-.
    by apply fetches_catalog. }
  unfold start_scheduled_updates. simpl.
  induction due as [|[|] due IH]; simpl.
  - done.
  - rewrite Hpass. simpl. destruct IH as (-> & -> & IH).
    split; [done |]. split; [done |].
    rewrite pass_events_app, pass_events_in_pass. simpl.
    by rewrite !fetches_app, Hevs, IH.
  - exact IH.
Qed.
End scheduler_proofs.

(** ** The further properties on concrete catalogs *)

(** A record with a name and a size but no URL. *)
Lemma incomplete_record_is_not_downloaded_witness :
  ¬ complete no_url ∧
  download_single_model always_ok no_url empty_state =
    Result (Raise (KeyError "file_url")) empty_state [].
Proof.
  assert (¬ complete no_url) as Hbad.
  { intros (_ & [url Hurl] & _). discriminate Hurl. }
  split; [exact Hbad |].
  exact (incomplete_record_is_not_downloaded always_ok no_url empty_state Hbad).
Defined.

(** [m1] is missing and would be fetched, but a record has no name. *)
Lemma nameless_record_aborts_pass_witness :
  ¬ Forall named [m1; nameless; v1] ∧
  update_models nameless_catalog always_ok empty_state =
    Result (Raise (KeyError "name")) empty_state
      ([SessionGet models_url; SessionGet vaes_url] ++ [ListDir]).
Proof.
  assert (¬ Forall named [m1; nameless; v1]) as Hbad.
  { intros Hall. apply Forall_cons_1 in Hall as [_ Hall].
    apply Forall_cons_1 in Hall as [[n Hn] _]. discriminate Hn. }
  split; [exact Hbad |].
  apply (nameless_record_aborts_pass nameless_catalog always_ok
           [m1; nameless; v1] _ empty_state); [reflexivity | exact Hbad].
Defined.

(** [v1] is listed, but after a record without a name. *)
Lemma nameless_record_before_match_witness :
  name nameless = None ∧
  update_single_model nameless_catalog always_ok "v1" empty_state =
    Result (Raise (KeyError "name")) empty_state
      [SessionGet models_url; SessionGet vaes_url].
Proof.
  split; [reflexivity |].
  apply (nameless_record_before_match nameless_catalog always_ok "v1"
           [m1] nameless [v1] _ empty_state); [reflexivity | | reflexivity].
  apply Forall_cons_2; [| apply Forall_nil_2].
  eexists; split; [reflexivity | discriminate].
Defined.

(** The empty store is well keyed, and so is what a first pass makes of
    it. *)
Lemma store_stays_well_keyed_witness :
  well_keyed empty_state ∧
  well_keyed (state_of (update_models m1_v1_catalog always_ok empty_state)).
Proof.
  assert (well_keyed empty_state) as Hwk.
  { intros k n x. destruct k; simpl; rewrite lookup_empty; discriminate. }
  split; [exact Hwk |].
  exact (proj1 (store_stays_well_keyed m1_v1_catalog always_ok empty_state Hwk)).
Defined.

(** The transfer of [b] raises after [a] was fetched. *)
Lemma failed_pass_leaves_store_unchanged_witness :
  outcome_of
    (update_models abc_catalog (except_for "b.safetensors" raises_without_file)
       v1_configured) = Raise DownloadError ∧
  model_configs
    (state_of
       (update_models abc_catalog
          (except_for "b.safetensors" raises_without_file) v1_configured)) =
    model_configs v1_configured ∧
  vae_configs
    (state_of
       (update_models abc_catalog
          (except_for "b.safetensors" raises_without_file) v1_configured)) =
    vae_configs v1_configured.
Proof.
  split; [reflexivity |].
  apply (failed_pass_leaves_store_unchanged abc_catalog
           (except_for "b.safetensors" raises_without_file) v1_configured
           DownloadError).
  reflexivity.
Defined.

Lemma failed_single_update_leaves_store_unchanged_witness :
  outcome_of
    (update_single_model abc_catalog
       (except_for "b.safetensors" raises_without_file) "b" v1_configured) =
    Raise DownloadError ∧
  model_configs
    (state_of
       (update_single_model abc_catalog
          (except_for "b.safetensors" raises_without_file) "b"
          v1_configured)) =
    model_configs v1_configured ∧
  vae_configs
    (state_of
       (update_single_model abc_catalog
          (except_for "b.safetensors" raises_without_file) "b"
          v1_configured)) =
    vae_configs v1_configured.
Proof.
  split; [reflexivity |].
  apply (failed_single_update_leaves_store_unchanged abc_catalog
           (except_for "b.safetensors" raises_without_file) "b" v1_configured
           DownloadError).
  reflexivity.
Defined.

(** The transfer of [v1] in a first pass: 5 MB are 5242880 bytes. *)
Lemma transfers_are_listed_witness :
  DownloadFile "http://x/v1" "v1.safetensors" 5242880 ∈
    events_of (update_models m1_v1_catalog always_ok empty_state) ∧
  ∃ mi n size,
    mi ∈ [m1; v1] ∧ name mi = Some n ∧ file_url mi = Some "http://x/v1" ∧
    size_mb mi = Some size ∧
    "v1.safetensors" = n +:+ safetensors ∧ 5242880%Z = (size * 1048576)%Z.
Proof.
  assert (DownloadFile "http://x/v1" "v1.safetensors" 5242880 ∈
            events_of (update_models m1_v1_catalog always_ok empty_state))
    as Hin.
  { apply list_elem_of_In. vm_compute. do 9 right. left. reflexivity. }
  split; [exact Hin |].
  apply (transfers_are_listed m1_v1_catalog always_ok [m1; v1]
           [SessionGet models_url; SessionGet vaes_url] empty_state
           "http://x/v1" "v1.safetensors" 5242880);
    [reflexivity | exact Hin].
Defined.

(** [m1] is listed twice and fetched once. *)
Lemma each_file_is_fetched_once_witness :
  destinations
    (events_of (update_models twice_m1_catalog always_ok empty_state)) =
    ["m1.safetensors"; "v1.safetensors"] ∧
  NoDup
    (destinations
       (events_of (update_models twice_m1_catalog always_ok empty_state))) ∧
  ∀ f,
    f ∈ destinations
          (events_of (update_models twice_m1_catalog always_ok empty_state)) →
    f ∉ local_files empty_state.
Proof.
  split; [reflexivity |].
  apply (each_file_is_fetched_once twice_m1_catalog always_ok [m1; m1; v1]
           [SessionGet models_url; SessionGet vaes_url] empty_state);
    [reflexivity |].
  intros url f size _. reflexivity.
Defined.

(** A record with ['vae': false] is filed as a VAE. *)
Lemma merge_files_record_by_key_presence_witness :
  name vae_false = Some "v2" ∧
  vae_configs (state_of (update_config_single_model vae_false empty_state))
    !! "v2" = Some vae_false ∧
  model_configs (state_of (update_config_single_model vae_false empty_state))
    !! "v2" = None.
Proof.
  split; [reflexivity |].
  destruct (merge_files_record_by_key_presence vae_false "v2" empty_state)
    as (_ & _ & _ & Hvae & Hmodel); [reflexivity |].
  split; [rewrite Hvae | rewrite Hmodel]; reflexivity.
Defined.

(** [v1] comes before an older record of the same name. *)
Lemma first_record_of_a_name_is_stored_witness :
  partition_of v1 empty_state !! "v1" = None ∧
  partition_of v1 (state_of (update_configs ([m1] ++ v1 :: [old_v1]) empty_state))
    !! "v1" = Some v1.
Proof.
  split; [reflexivity |].
  apply (first_record_of_a_name_is_stored [m1] v1 [old_v1] "v1" empty_state);
    [| reflexivity | reflexivity].
  apply Forall_cons_2; [| apply Forall_nil_2].
  split; [eexists; reflexivity |]. intros [Hn _]. discriminate Hn.
Defined.

(** A first pass from an empty directory. *)
Lemma one_pass_brings_every_listed_file_witness :
  outcome_of (update_models m1_v1_catalog always_ok empty_state) = Ret tt ∧
  (∀ n, listed [m1; v1] n →
        n +:+ safetensors ∈
          local_files
            (state_of (update_models m1_v1_catalog always_ok empty_state))) ∧
  outcome_of
    (is_update_required [m1; v1]
       (state_of (update_models m1_v1_catalog always_ok empty_state))) =
    Ret false.
Proof.
  apply (one_pass_brings_every_listed_file m1_v1_catalog always_ok [m1; v1]
           [SessionGet models_url; SessionGet vaes_url] empty_state).
  - reflexivity.
  - repeat (apply Forall_cons_2; [repeat split; eexists; reflexivity |]).
    apply Forall_nil_2.
  - intros mi Hin%list_elem_of_In. simpl in Hin.
    destruct Hin as [<- | [<- | []]]; reflexivity.
Defined.

(** Two idle turns, then a pass over a catalog with a record without a
    name; two more turns were to follow. *)
Lemma exception_ends_scheduler_loop_witness :
  outcome_of (update_models nameless_catalog always_ok empty_state) =
    Raise (KeyError "name") ∧
  start_scheduled_updates nameless_catalog always_ok 60
    (replicate 2 false ++ true :: [true; true]) empty_state =
    LoopResult (Crashed (KeyError "name"))
      (state_of (update_models nameless_catalog always_ok empty_state))
      (Scheduled 60 :: replicate 2 Sleep ++
       (InPass <$>
          events_of (update_models nameless_catalog always_ok empty_state))).
Proof.
  split; [reflexivity |].
  apply (exception_ends_scheduler_loop nameless_catalog always_ok 60 2
           [true; true] empty_state (KeyError "name")).
  reflexivity.
Defined.

(** [v1] is the whole catalog and its file is on disk. *)
Lemma scheduler_is_idle_once_files_are_there_witness :
  loop_outcome_of
    (start_scheduled_updates v1_catalog always_ok 60 [true; false; true]
       v1_on_disk) = Running ∧
  loop_state_of
    (start_scheduled_updates v1_catalog always_ok 60 [true; false; true]
       v1_on_disk) = v1_on_disk ∧
  fetches
    (pass_events
       (loop_events_of
          (start_scheduled_updates v1_catalog always_ok 60 [true; false; true]
             v1_on_disk))) = 0.
Proof.
  apply (scheduler_is_idle_once_files_are_there v1_catalog always_ok 60
           [true; false; true] [v1]
           [SessionGet models_url; SessionGet vaes_url] v1_on_disk).
  - reflexivity.
  - discriminate.
  - apply Forall_cons_2; [eexists; reflexivity | apply Forall_nil_2].
  - intros m (mi & Hin%list_elem_of_In & Hm). simpl in Hin.
    destruct Hin as [<- | []]. injection Hm as <-. vm_compute. reflexivity.
Defined.
